(** * The least-traffic load balancer (cmd/lb/balancer.go)

    A shallow embedding of the balancer's dispatch core: the traffic
    ledger ([traffic], a Go map from backend to a queue of samples), the
    decay sweeper ([reduceTraffic]), the health probe ([health]), the
    forwarder ([forward]) and the request handler installed by [main].

    Conventions.
    - Go's [int] is the 64-bit two's-complement integer: values are in [Z]
      and every [+=] goes through [addInt], which wraps around.
    - [time.Time] is an instant, counted in nanoseconds as a [Z];
      [time.Duration] is a number of nanoseconds.
    - The map [traffic] is a [gmap]; a [range] over it visits the entries
      in an order the runtime chooses, so every loop over the map takes
      the visiting order as a list that is a permutation of the map's
      entries.
    - [http.ResponseWriter] is an interface: the handler's effect on it is
      the sequence of calls it makes ([rwCall]); [replay] gives what the
      standard library's writer and header map do with them.
    - The outcome of [http.DefaultClient.Do] and of [io.ReadAll] comes
      from the network and is an input of the model. *)

From stdpp Require Import gmap strings list fin_maps sorting.
From Stdlib Require Import ZArith Lia.

Local Open Scope string_scope.
Local Open Scope list_scope.
Local Open Scope Z_scope.

(** ** Machine integers *)

Definition maxInt : Z := 2 ^ 63 - 1.          (* int(^uint(0) >> 1) *)
Definition minInt : Z := - 2 ^ 63.

(** The value an [int] holds after an arithmetic result [z]. *)
Definition wrapInt (z : Z) : Z := (z + 2 ^ 63) mod 2 ^ 64 - 2 ^ 63.

Definition addInt (a b : Z) : Z := wrapInt (a + b).
Definition mulInt (a b : Z) : Z := wrapInt (a * b).

Definition inRange (z : Z) : Prop := minInt <= z <= maxInt.

(** ** The traffic ledger *)

(** [type sizeTimestamp struct { size int; timestamp time.Time }] *)
Record sizeTimestamp := SizeTimestamp {
  size : Z;
  timestamp : Z
}.

Abbreviation queue := (list sizeTimestamp).
Abbreviation ledger := (gmap string (list sizeTimestamp)).

(** A [range] over the map: some enumeration of its entries. *)
Definition rangeOf (m : ledger) (tr : list (string * queue)) : Prop :=
  tr ≡ₚ map_to_list m.

(** [traffic[server]] read as an expression: the nil slice when absent. *)
Definition queueOf (m : ledger) (server : string) : queue :=
  default [] (m !! server).

(** [serverTraffic := 0; for _, st := range q { serverTraffic += st.size }] *)
Definition sumSizes (q : queue) : Z :=
  foldl (fun total st => addInt total (size st)) 0 q.

Definition load (m : ledger) (server : string) : Z := sumSizes (queueOf m server).

(** ** Selection: the loop of the request handler

    [minTrafficServer] starts as the empty string and [minTraffic] as the
    largest [int]; an entry replaces them when its sum is strictly
    smaller. *)
Definition selectStep (acc : string * Z) (e : string * queue) : string * Z :=
  let serverTraffic := sumSizes e.2 in
  if serverTraffic <? acc.2 then (e.1, serverTraffic) else acc.

Definition selectLoop (tr : list (string * queue)) : string * Z :=
  foldl selectStep ("", maxInt) tr.

Definition minTrafficServer (tr : list (string * queue)) : string := (selectLoop tr).1.
Definition minTraffic (tr : list (string * queue)) : Z := (selectLoop tr).2.

(** What the loop computes from an accumulator: either no entry replaced
    it, and then no sum was below it, or the result is the first entry of
    least sum. *)
Inductive selectResult (acc : string * Z) (tr : list (string * queue)) : string * Z -> Prop :=
| sel_kept :
    Forall (fun e => acc.2 <= sumSizes e.2) tr ->
    selectResult acc tr acc
| sel_found pre e post :
    tr = pre ++ e :: post ->
    sumSizes e.2 < acc.2 ->
    Forall (fun e' => sumSizes e.2 < sumSizes e'.2) pre ->
    Forall (fun e' => sumSizes e.2 <= sumSizes e'.2) post ->
    selectResult acc tr (e.1, sumSizes e.2).

(** ** The decay sweeper: one tick of [reduceTraffic] *)

Definition Second : Z := 1000000000.          (* time.Second, in nanoseconds *)

(** [t.After(u)] *)
Definition After (t u : Z) : bool := u <? t.

(** [time.Now().Add(-5 * time.Second)] *)
Definition cutoffAt (now : Z) : Z := now + (-5) * Second.

(** The body of [for _, st := range queue]. *)
Definition keepStep (cutoff : Z) (newQueue : queue) (st : sizeTimestamp) : queue :=
  if After (timestamp st) cutoff then newQueue ++ [st] else newQueue.

Definition pruneQueue (now : Z) (q : queue) : queue :=
  foldl (keepStep (cutoffAt now)) [] q.

(** [for server, queue := range traffic { ...; traffic[server] = newQueue }].
    [time.Now()] is read once per entry: [clock i] is the reading at the
    [i]-th entry visited. *)
Fixpoint reduceTrafficLoop (clock : nat -> Z) (i : nat)
    (tr : list (string * queue)) (m : ledger) : ledger :=
  match tr with
  | [] => m
  | (server, q) :: rest =>
      reduceTrafficLoop clock (S i) rest (<[server := pruneQueue (clock i) q]> m)
  end.

(** One tick of [reduceTraffic], between [mu.Lock()] and [mu.Unlock()]. *)
Definition reduceTraffic (clock : nat -> Z) (tr : list (string * queue))
    (m : ledger) : ledger :=
  reduceTrafficLoop clock 0 tr m.

(** ** Recording a sample: [incrementTraffic]

    Returns the new ledger and the total it logs. *)
Definition incrementTraffic (now : Z) (dst : string) (sz : Z) (m : ledger) : ledger * Z :=
  let m' := <[dst := queueOf m dst ++ [SizeTimestamp sz now]]> m in
  (m', sumSizes (queueOf m' dst)).

(** ** Configuration: flags and package-level variables *)

Record flags := Flags {
  port : Z;                 (* -port, default 8090 *)
  timeoutSec : Z;           (* -timeout-sec, default 3 *)
  https : bool;             (* -https, default false *)
  traceEnabled : bool       (* -trace, default false *)
}.

(** What [flag.Int] and [flag.Bool] store when the flags are declared. *)
Definition flagDefaults : flags := Flags 8090 3 false false.

(** The options given on the command line; [None] leaves a flag alone. *)
Record cmdLine := CmdLine {
  argPort : option Z;
  argTimeoutSec : option Z;
  argHttps : option bool;
  argTrace : option bool
}.

(** The package-level variables other than the ledger. *)
Record config := Config {
  flagValues : flags;
  timeout : Z;              (* a time.Duration *)
  serversPool : list string
}.

(** Package initialisation, which Go runs before [main]: the flags are
    declared with their defaults and [timeout] is computed from
    [*timeoutSec] as it is then. *)
Definition packageInit : config :=
  {| flagValues := flagDefaults;
     timeout := mulInt (timeoutSec flagDefaults) Second;
     serversPool := ["server1:8080"; "server2:8080"; "server3:8080"] |}.

(** [flag.Parse()]: stores the command line's values behind the flag
    pointers. No other variable is assigned. *)
Definition flagParse (args : cmdLine) (c : config) : config :=
  let f := flagValues c in
  {| flagValues :=
       {| port := default (port f) (argPort args);
          timeoutSec := default (timeoutSec f) (argTimeoutSec args);
          https := default (https f) (argHttps args);
          traceEnabled := default (traceEnabled f) (argTrace args) |};
     timeout := timeout c;
     serversPool := serversPool c |}.

(** [for _, server := range serversPool { traffic[server] = make(...) }] *)
Definition initTraffic (pool : list string) (m : ledger) : ledger :=
  foldl (fun m server => <[server := []]> m) m pool.

(** The start of [main]: parse the flags, then create the queues. *)
Definition startup (args : cmdLine) : config * ledger :=
  let c := flagParse args packageInit in
  (c, initTraffic (serversPool c) ∅).

Definition scheme (c : config) : string :=
  if https (flagValues c) then "https" else "http".

(** ** HTTP values *)

Inductive error : Type :=
| DeadlineExceeded                      (* the context's timeout expired *)
| ConnectionRefused
| NoSuchHost
| UnexpectedEOF
| OtherError (msg : string).

Record url := Url {
  Scheme : string;
  UHost : string;
  Path : string;
  RawQuery : string
}.

Record request := Request {
  Method : string;
  URL : url;
  RequestURI : string;
  Host : string;
  ReqHeader : list (string * list string);
  ReqBody : list Byte.byte;
  ctxTimeouts : list Z      (* the timeouts set on the request's context, innermost first *)
}.

Record response := Response {
  StatusCode : Z;
  Header : list (string * list string);  (* the keys in the order a range visits them *)
  Body : error + list Byte.byte          (* what io.ReadAll(resp.Body) returns *)
}.

(** [http.DefaultClient.Do], for the requests of one handler run. *)
Abbreviation transport := (request -> error + response).

(** [len(bodyBytes)] *)
Definition len (b : list Byte.byte) : Z := Z.of_nat (length b).

Definition StatusOK : Z := 200.
Definition StatusInternalServerError : Z := 500.
Definition StatusServiceUnavailable : Z := 503.

(** The calls made on the [http.ResponseWriter]. *)
Inductive rwCall : Type :=
| HeaderAdd (k v : string)              (* rw.Header().Add(k, v) *)
| HeaderSet (k v : string)              (* rw.Header().Set(k, v) *)
| WriteHeader (code : Z)                (* rw.WriteHeader(code) *)
| Write (body : list Byte.byte).        (* rw.Write(body) *)

Inductive logEntry : Type :=
| LogTrafficCount (dst : string) (total : Z)
| LogReadFailed (err : error)
| LogFwd (code : Z)
| LogWriteFailed (err : error)
| LogNoResponse (dst : string) (err : error)
| LogNoServers
| LogHealth (server : string) (healthy : bool) (load : Z).

(** ** The health probe *)

Definition healthRequest (c : config) (dst : string) : request :=
  {| Method := "GET";
     URL := Url (scheme c) dst "/health" "";
     RequestURI := "";
     Host := dst;
     ReqHeader := [];
     ReqBody := [];
     ctxTimeouts := [timeout c] |}.

Definition health (c : config) (do : transport) (dst : string) : bool :=
  match do (healthRequest c dst) with
  | inl err => false
  | inr resp => if decide (StatusCode resp <> StatusOK) then false else true
  end.

(** One round of a backend's monitor goroutine in [main]. *)
Definition healthTick (c : config) (do : transport) (server : string) (m : ledger) : logEntry :=
  LogHealth server (health c do server) (load m server).

(** ** The forwarder *)

(** What one handler run reads from outside the program. *)
Record world := World {
  Do : transport;                        (* http.DefaultClient.Do *)
  Now : Z;                               (* time.Now() in incrementTraffic *)
  WriteError : option error              (* the error rw.Write returns *)
}.

(** What a handler run has changed or produced so far. *)
Record procState := ProcState {
  traffic : ledger;
  rw : list rwCall;                      (* calls on the ResponseWriter, oldest first *)
  logged : list logEntry;
  sent : list request                    (* requests given to the HTTP client *)
}.

(** [r.Clone(ctx)] with the four assignments that follow it. *)
Definition fwdRequest (c : config) (dst : string) (r : request) : request :=
  {| Method := Method r;
     URL := Url (scheme c) dst (Path (URL r)) (RawQuery (URL r));
     RequestURI := "";
     Host := dst;
     ReqHeader := ReqHeader r;
     ReqBody := ReqBody r;
     ctxTimeouts := timeout c :: ctxTimeouts r |}.

(** [for k, values := range resp.Header { for _, value := range values {
    rw.Header().Add(k, value) } }] *)
Definition copyValues (k : string) (calls : list rwCall) (values : list string) : list rwCall :=
  foldl (fun calls value => calls ++ [HeaderAdd k value]) calls values.

Definition copyHeaders (calls : list rwCall) (hdr : list (string * list string)) : list rwCall :=
  foldl (fun calls kv => copyValues kv.1 calls kv.2) calls hdr.

Definition forward (c : config) (w : world) (dst : string) (r : request)
    (s : procState) : procState * option error :=
  let req := fwdRequest c dst r in
  let sent' := sent s ++ [req] in
  match Do w req with
  | inr resp =>
      match Body resp with
      | inl err =>
          (ProcState (traffic s)
                     (rw s ++ [WriteHeader StatusInternalServerError])
                     (logged s ++ [LogReadFailed err])
                     sent',
           Some err)
      | inr bodyBytes =>
          let '(traffic', total) :=
            incrementTraffic (Now w) dst (len bodyBytes) (traffic s) in
          let rw1 := copyHeaders (rw s) (Header resp) in
          let rw2 := if traceEnabled (flagValues c)
                     then rw1 ++ [HeaderSet "lb-from" dst] else rw1 in
          let rw3 := rw2 ++ [WriteHeader (StatusCode resp); Write bodyBytes] in
          let log1 := logged s ++ [LogTrafficCount dst total; LogFwd (StatusCode resp)] in
          let log2 := match WriteError w with
                      | Some err => log1 ++ [LogWriteFailed err]
                      | None => log1
                      end in
          (ProcState traffic' rw3 log2 sent', None)
      end
  | inl err =>
      (ProcState (traffic s)
                 (rw s ++ [WriteHeader StatusServiceUnavailable])
                 (logged s ++ [LogNoResponse dst err])
                 sent',
       Some err)
  end.

(** ** The request handler of [main]

    [tr] is the order in which [range traffic] visits the ledger. *)
Definition handler (c : config) (w : world) (tr : list (string * queue))
    (r : request) (s : procState) : procState :=
  let server := minTrafficServer tr in
  if decide (server = "") then
    ProcState (traffic s)
              (rw s ++ [WriteHeader StatusServiceUnavailable])
              (logged s ++ [LogNoServers])
              (sent s)
  else (forward c w server r s).1.

(** A handler run on a fresh ResponseWriter. *)
Definition serve (c : config) (w : world) (tr : list (string * queue))
    (r : request) (m : ledger) : procState :=
  handler c w tr r (ProcState m [] [] []).

(** ** The running balancer

    Requests and sweeper ticks, in the order they take the mutex. Each
    carries the visiting order its [range] over the ledger gets, as a
    function of the ledger it finds. *)
Inductive event : Type :=
| Dispatch (w : world) (order : ledger -> list (string * queue)) (r : request)
| Sweep (clock : nat -> Z) (order : ledger -> list (string * queue)).

Definition validOrder (order : ledger -> list (string * queue)) : Prop :=
  forall m, rangeOf m (order m).

Definition validEvent (e : event) : Prop :=
  match e with
  | Dispatch _ order _ => validOrder order
  | Sweep _ order => validOrder order
  end.

(** The ledger after the events, and the handler runs they contain. *)
Fixpoint run (c : config) (evs : list event) (m : ledger) : ledger * list procState :=
  match evs with
  | [] => (m, [])
  | Dispatch w order r :: rest =>
      let s := serve c w (order m) r m in
      let '(m', out) := run c rest (traffic s) in
      (m', s :: out)
  | Sweep clock order :: rest =>
      run c rest (reduceTraffic clock (order m) m)
  end.

Definition isDispatch (e : event) : bool :=
  match e with
  | Dispatch _ _ _ => true
  | Sweep _ _ => false
  end.

(** The success class of HTTP status codes, 2xx: the criterion the
    specification words for the probe, to compare with [health]. *)
Definition successClass (code : Z) : Prop := 200 <= code < 300.

(** ** What a ResponseWriter does with the calls

    [http.Header] and the server's [http.ResponseWriter] belong to Go's
    standard library (net/textproto, net/http), outside the repository.
    They are modelled here from the library, as far as the calls of
    [forward] reach: the header map with its canonical keys, the status
    line and the headers sent with it. The bytes of the body are not
    tracked. *)

(** [validHeaderFieldByte]: the token characters of RFC 7230. *)
Definition validHeaderFieldByte (a : Ascii.ascii) : bool :=
  let n := Ascii.nat_of_ascii a in
  ((n =? 33) || ((35 <=? n) && (n <=? 39)) || (n =? 42) || (n =? 43)
   || (n =? 45) || (n =? 46) || ((48 <=? n) && (n <=? 57))
   || ((65 <=? n) && (n <=? 90)) || ((94 <=? n) && (n <=? 122))
   || (n =? 124) || (n =? 126))%nat.

(** The second loop of [canonicalMIMEHeaderKey]: upper case for the
    first letter and for a letter after a hyphen, lower case for the
    other letters. *)
Fixpoint canonicalLetters (upper : bool) (s : string) : string :=
  match s with
  | EmptyString => EmptyString
  | String a rest =>
      let n := Ascii.nat_of_ascii a in
      let a' :=
        if (upper && (97 <=? n) && (n <=? 122))%nat then Ascii.ascii_of_nat (n - 32)
        else if (negb upper && (65 <=? n) && (n <=? 90))%nat then Ascii.ascii_of_nat (n + 32)
        else a in
      String a' (canonicalLetters (Ascii.nat_of_ascii a' =? 45)%nat rest)   (* c == '-' *)
  end.

(** [textproto.CanonicalMIMEHeaderKey]: a key with a byte that is not a
    token character is returned as it is. *)
Definition CanonicalMIMEHeaderKey (s : string) : string :=
  if forallb validHeaderFieldByte (String.list_ascii_of_string s)
  then canonicalLetters true s else s.

(** A [http.Header], and reading [h[key]]. *)
Abbreviation header := (gmap string (list string)).

Definition headerValues (h : header) (key : string) : list string :=
  default [] (h !! key).

(** [h.Add(key, value)] and [h.Set(key, value)]. *)
Definition headerAdd (key value : string) (h : header) : header :=
  let k := CanonicalMIMEHeaderKey key in
  <[k := headerValues h k ++ [value]]> h.

Definition headerSet (key value : string) (h : header) : header :=
  <[CanonicalMIMEHeaderKey key := [value]]> h.

(** The state of a ResponseWriter: the map [Header()] returns, the
    status line with the headers that went out with it once it is
    written, and whether a call panicked. *)
Record responseWriter := ResponseWriter {
  rwHeader : header;
  rwStatus : option (Z * header);
  rwPanicked : bool
}.

Definition freshWriter : responseWriter := ResponseWriter ∅ None false.

(** [WriteHeader]: nothing after the first status line; a panic for a
    code outside 100..999; a 1xx code other than 101 goes out as an
    informational response and leaves the status line to come; any other
    code is the status line, sent with the headers as they are then. *)
Definition writeHeader (code : Z) (st : responseWriter) : responseWriter :=
  match rwStatus st with
  | Some _ => st
  | None =>
      if (code <? 100) || (999 <? code) then
        ResponseWriter (rwHeader st) None true
      else if (code <=? 199) && negb (code =? 101) then st
      else ResponseWriter (rwHeader st) (Some (code, rwHeader st)) false
  end.

(** One call on the writer. After a panic the handler is gone and no
    call happens. [Write] writes the status line 200 first if none is
    written yet. *)
Definition applyCall (st : responseWriter) (call : rwCall) : responseWriter :=
  if rwPanicked st then st else
  match call with
  | HeaderAdd k v => ResponseWriter (headerAdd k v (rwHeader st)) (rwStatus st) false
  | HeaderSet k v => ResponseWriter (headerSet k v (rwHeader st)) (rwStatus st) false
  | WriteHeader code => writeHeader code st
  | Write _ =>
      match rwStatus st with
      | Some _ => st
      | None => writeHeader StatusOK st
      end
  end.

Definition replay (calls : list rwCall) (st : responseWriter) : responseWriter :=
  foldl applyCall st calls.



(** ** Notions used to state properties of the ledger *)

(** The sum of the sizes as integers, with no wrap-around. *)
Definition exactSum (q : queue) : Z := foldr (fun st acc => size st + acc) 0 q.

(** Every recorded size is a byte count. *)
Definition sizesNonneg (q : queue) : Prop := Forall (fun st => 0 <= size st) q.

(** The samples are in the order of their timestamps, oldest first. *)
Definition oldestFirst (q : queue) : Prop :=
  StronglySorted (fun a b => timestamp a <= timestamp b) q.

(** The calls that touch the header map, and the key of the map they
    touch. *)
Definition headerKey (call : rwCall) : option string :=
  match call with
  | HeaderAdd k _ | HeaderSet k _ => Some (CanonicalMIMEHeaderKey k)
  | WriteHeader _ | Write _ => None
  end.


(** ** Sample values, used to exercise the statements below *)

Definition sampleConfig (trace : bool) : config :=
  {| flagValues := Flags 8090 3 false trace;
     timeout := 3 * Second;
     serversPool := ["server1:8080"; "server2:8080"; "server3:8080"] |}.

Definition sampleRequest : request :=
  {| Method := "GET";
     URL := Url "" "" "/api/v1/some-data" "";
     RequestURI := "/api/v1/some-data";
     Host := "balancer:8090";
     ReqHeader := [];
     ReqBody := [];
     ctxTimeouts := [] |}.

Definition sampleBody : list Byte.byte := [Byte.x68; Byte.x65; Byte.x6c; Byte.x6c; Byte.x6f].

Definition sampleResponse : response :=
  {| StatusCode := 200;
     Header := [("Content-Type", ["text/plain"]); ("Set-Cookie", ["a=1"; "b=2"])];
     Body := inr sampleBody |}.

(** A backend that answers, one that cannot be reached, one whose body
    breaks off, and one that answers 204. *)
Definition answering : world := World (fun _ => inr sampleResponse) (7 * Second) None.
Definition unreachable : world := World (fun _ => inl ConnectionRefused) (7 * Second) None.
Definition truncated : world :=
  World (fun _ => inr (Response 200 [] (inl UnexpectedEOF))) (7 * Second) None.
Definition noContent : transport := fun _ => inr (Response 204 [] (inr [])).

Definition sampleLedger : ledger :=
  <[ "server1:8080" := [SizeTimestamp 100 (6 * Second)] ]>
    (<[ "server2:8080" := [] ]> (<[ "server3:8080" := [] ]> ∅)).

(** The balancer configured with no backend at all. *)
Definition emptyPoolConfig : config :=
  {| flagValues := flagDefaults; timeout := 3 * Second; serversPool := [] |}.

Definition sampleEvents : list event :=
  [Dispatch answering map_to_list sampleRequest;
   Sweep (fun _ => 9 * Second) map_to_list;
   Dispatch unreachable map_to_list sampleRequest].

(** * Properties *)

(** ** Machine integers and sums *)

Section Arithmetic.

Lemma wrapInt_range z : inRange (wrapInt z).
Proof.
  unfold inRange, wrapInt, minInt, maxInt.
  pose proof (Z.mod_pos_bound (z + 2 ^ 63) (2 ^ 64) ltac:(lia)). lia.
Qed.

Lemma wrapInt_id z : inRange z -> wrapInt z = z.
Proof.
  unfold inRange, wrapInt, minInt, maxInt. intros H.
  rewrite Z.mod_small; lia.
Qed.

Lemma addInt_exact a b : inRange (a + b) -> addInt a b = a + b.
Proof. apply wrapInt_id. Qed.

Lemma sumSizes_nil : sumSizes [] = 0.
Proof. reflexivity. Qed.

Lemma sumSizes_snoc q st : sumSizes (q ++ [st]) = addInt (sumSizes q) (size st).
Proof. unfold sumSizes. by rewrite foldl_app. Qed.

Lemma sumSizes_range q : inRange (sumSizes q).
Proof.
  induction q as [|st q _] using rev_ind.
  - unfold inRange, minInt, maxInt. rewrite sumSizes_nil. lia.
  - rewrite sumSizes_snoc. apply wrapInt_range.
Qed.

Lemma sumSizes_le_maxInt q : sumSizes q <= maxInt.
Proof. apply sumSizes_range. Qed.

(** Past the largest [int] the sum wraps around, as Go's [+=] does. *)
Example sumSizes_wraps :
  sumSizes [SizeTimestamp maxInt 0; SizeTimestamp 1 1] = minInt.
Proof. reflexivity. Qed.

Lemma len_nonneg b : 0 <= len b.
Proof. unfold len. lia. Qed.

End Arithmetic.

(** ** A range over the ledger *)

Section Range.

Implicit Types (m : ledger) (tr : list (string * queue)).

Lemma rangeOf_elem m tr server q :
  rangeOf m tr -> (server, q) ∈ tr <-> m !! server = Some q.
Proof.
  unfold rangeOf. intros Hp. rewrite Hp. apply elem_of_map_to_list.
Qed.

Lemma rangeOf_NoDup m tr : rangeOf m tr -> NoDup tr.*1.
Proof.
  unfold rangeOf. intros Hp. rewrite Hp. apply NoDup_fst_map_to_list.
Qed.

Lemma rangeOf_empty tr : rangeOf ∅ tr -> tr = [].
Proof.
  unfold rangeOf. rewrite map_to_list_empty. apply Permutation_nil_r.
Qed.

Lemma rangeOf_map_to_list m : rangeOf m (map_to_list m).
Proof. by unfold rangeOf. Qed.

Lemma rangeOf_singleton server q : rangeOf {[server := q]} [(server, q)].
Proof. unfold rangeOf. by rewrite map_to_list_singleton. Qed.

End Range.

(** ** The selection loop *)

Section Selection.

Implicit Types (m : ledger) (tr pre post : list (string * queue)) (acc : string * Z).

Lemma foldl_selectStep_result acc tr : selectResult acc tr (foldl selectStep acc tr).
Proof.
  revert acc. induction tr as [|e0 tr IH]; intros acc; simpl.
  - by apply sel_kept.
  - unfold selectStep at 2.
    destruct (Z.ltb_spec (sumSizes e0.2) acc.2) as [Hlt|Hge].
    + destruct (IH (e0.1, sumSizes e0.2)) as [Hall|pre e post -> Hlt' Hpre Hpost].
      * by apply (sel_found acc (e0 :: tr) [] e0 tr).
      * simpl in Hlt'.
        apply (sel_found acc _ (e0 :: pre) e post); [done|lia| |done].
        by constructor.
    + destruct (IH acc) as [Hall|pre e post -> Hlt' Hpre Hpost].
      * apply sel_kept. by constructor.
      * apply (sel_found acc _ (e0 :: pre) e post); [done|done| |done].
        constructor; [lia|done].
Qed.

Lemma selectLoop_result tr : selectResult ("", maxInt) tr (selectLoop tr).
Proof. apply foldl_selectStep_result. Qed.

(** No entry is chosen when every sum is the largest [int]. *)
Lemma selectLoop_none tr :
  Forall (fun e => sumSizes e.2 = maxInt) tr -> selectLoop tr = ("", maxInt).
Proof.
  intros Hall. destruct (selectLoop_result tr) as [_|pre e post -> Hlt _ _]; [done|].
  rewrite Forall_app, Forall_cons in Hall. simpl in Hlt. lia.
Qed.

Lemma selectLoop_some tr e0 :
  e0 ∈ tr -> sumSizes e0.2 < maxInt ->
  exists pre e post,
    tr = pre ++ e :: post /\
    selectLoop tr = (e.1, sumSizes e.2) /\
    Forall (fun e' => sumSizes e.2 < sumSizes e'.2) pre /\
    Forall (fun e' => sumSizes e.2 <= sumSizes e'.2) post.
Proof.
  intros Hin Hlt.
  pose proof (selectLoop_result tr) as Hres.
  inversion Hres as [Hall Heq|pre e post Htr Hlt' Hpre Hpost Heq].
  - rewrite Forall_forall in Hall. specialize (Hall _ Hin). simpl in Hall. lia.
  - by exists pre, e, post.
Qed.

End Selection.

Section LeastLoad.

Implicit Types (m : ledger) (tr : list (string * queue)).

(** C1 (as amended). For every ledger snapshot in which some backend's
    summed size is below the largest [int], and for every order in which
    the map is visited, the selection returns a backend of the snapshot
    whose summed size is at most that of every pooled backend; every
    backend visited before it has a strictly larger sum, so among equal
    least sums the first one visited is chosen. *)
Theorem select_least_load m tr :
  rangeOf m tr ->
  (exists k q, m !! k = Some q /\ sumSizes q < maxInt) ->
  exists q pre post,
    m !! minTrafficServer tr = Some q /\
    minTraffic tr = sumSizes q /\
    (forall k' q', m !! k' = Some q' -> sumSizes q <= sumSizes q') /\
    tr = pre ++ (minTrafficServer tr, q) :: post /\
    Forall (fun e => sumSizes q < sumSizes e.2) pre.
Proof.
  intros Hr (k & q0 & Hk & Hlt).
  assert (Hin : (k, q0) ∈ tr) by by apply (rangeOf_elem m).
  destruct (selectLoop_some tr (k, q0) Hin Hlt)
    as (pre & [server q] & post & Htr & Hsel & Hpre & Hpost).
  unfold minTrafficServer, minTraffic. rewrite Hsel. simpl in *.
  exists q, pre, post. split_and!; [|done| |done|done].
  - apply (rangeOf_elem m tr); [done|].
    rewrite Htr, elem_of_app, elem_of_cons. auto.
  - intros k' q' Hk'.
    assert (Hin' : (k', q') ∈ tr) by by apply (rangeOf_elem m).
    rewrite Htr in Hin'. rewrite Forall_forall in Hpre, Hpost.
    apply elem_of_app in Hin' as [Hin'|Hin'].
    + specialize (Hpre _ Hin'). simpl in Hpre. lia.
    + apply elem_of_cons in Hin' as [Heq|Hin'].
      * inversion Heq. lia.
      * by specialize (Hpost _ Hin').
Qed.

Lemma select_least_load_witness :
  let m : ledger :=
    <[ "server1:8080" := [SizeTimestamp 100 0] ]>
      (<[ "server2:8080" := [] ]> (<[ "server3:8080" := [] ]> ∅)) in
  let tr := map_to_list m in
  exists q pre post,
    m !! minTrafficServer tr = Some q /\
    minTraffic tr = sumSizes q /\
    (forall k' q', m !! k' = Some q' -> sumSizes q <= sumSizes q') /\
    tr = pre ++ (minTrafficServer tr, q) :: post /\
    Forall (fun e => sumSizes q < sumSizes e.2) pre.
Proof.
  intros m tr. apply (select_least_load m tr).
  - apply rangeOf_map_to_list.
  - exists "server2:8080", []. split; [reflexivity|].
    vm_compute. reflexivity.
Defined.

(** The test's scenario: one loaded backend, visited first. *)
Example select_skips_loaded :
  minTrafficServer [("server1:8080", [SizeTimestamp 100 0]);
                    ("server2:8080", []); ("server3:8080", [])] = "server2:8080".
Proof. reflexivity. Qed.

(** Equal sums: the first one visited wins, whatever its name. *)
Example select_tie_first :
  minTrafficServer [("server3:8080", [SizeTimestamp 4 0]);
                    ("server1:8080", [SizeTimestamp 1 0; SizeTimestamp 3 1]);
                    ("server2:8080", [SizeTimestamp 9 2])] = "server3:8080".
Proof. reflexivity. Qed.

(** C1 (as stated) fails on a snapshot whose only backend has recorded
    exactly the largest [int]: the loop's comparison is strict, so the
    backend never replaces the initial values and no backend is
    returned. *)
Lemma select_least_load_counterexample :
  let m : ledger := {[ "server1:8080" := [SizeTimestamp maxInt 0] ]} in
  let tr := [("server1:8080", [SizeTimestamp maxInt 0])] in
  rangeOf m tr /\
  m !! "server1:8080" = Some [SizeTimestamp maxInt 0] /\
  minTrafficServer tr = "" /\
  ~ (exists q, m !! minTrafficServer tr = Some q /\
               forall k' q', m !! k' = Some q' -> sumSizes q <= sumSizes q').
Proof.
  intros m tr. split_and!.
  - apply rangeOf_singleton.
  - reflexivity.
  - vm_compute. reflexivity.
  - intros (q & Hq & _). vm_compute in Hq. discriminate.
Qed.

End LeastLoad.

(** ** The decay sweeper *)

Section Sweeper.

Implicit Types (m : ledger) (tr : list (string * queue)) (q : queue).

Lemma After_spec t u : After t u = true <-> u < t.
Proof. unfold After. apply Z.ltb_lt. Qed.

Lemma foldl_keepStep cutoff acc q :
  foldl (keepStep cutoff) acc q = acc ++ filter (fun st => cutoff < timestamp st) q.
Proof.
  revert acc. induction q as [|st q IH]; intros acc; simpl.
  - by rewrite app_nil_r.
  - rewrite IH. unfold keepStep, After.
    destruct (Z.ltb_spec cutoff (timestamp st)) as [Hlt|Hge].
    + rewrite filter_cons_True by done. by rewrite <- app_assoc.
    + rewrite filter_cons_False by lia. done.
Qed.

Lemma pruneQueue_filter now q :
  pruneQueue now q = filter (fun st => now - 5 * Second < timestamp st) q.
Proof.
  unfold pruneQueue. rewrite foldl_keepStep. simpl.
  apply list_filter_iff. intros st. unfold cutoffAt. lia.
Qed.

Lemma reduceTrafficLoop_other clock i tr m server :
  server ∉ tr.*1 ->
  reduceTrafficLoop clock i tr m !! server = m !! server.
Proof.
  revert i m. induction tr as [|[k q] tr IH]; intros i m Hnot; simpl; [done|].
  rewrite fmap_cons, not_elem_of_cons in Hnot. destruct Hnot as [Hne Hnot].
  rewrite IH by done. by rewrite lookup_insert_ne.
Qed.

Lemma reduceTrafficLoop_visited clock i tr m j server q :
  NoDup tr.*1 ->
  tr !! j = Some (server, q) ->
  reduceTrafficLoop clock i tr m !! server = Some (pruneQueue (clock (i + j)%nat) q).
Proof.
  revert i m j. induction tr as [|[k q0] tr IH]; intros i m j Hnd Hj; [done|].
  rewrite fmap_cons in Hnd. apply NoDup_cons in Hnd as [Hnot Hnd].
  destruct j as [|j]; simpl in *.
  - injection Hj as -> ->.
    rewrite reduceTrafficLoop_other by done.
    rewrite lookup_insert_eq. by rewrite Nat.add_0_r.
  - rewrite (IH (S i) _ j) by done. do 3 f_equal. lia.
Qed.

Lemma reduceTraffic_lookup clock m tr server q :
  rangeOf m tr ->
  m !! server = Some q ->
  exists i,
    tr !! i = Some (server, q) /\
    reduceTraffic clock tr m !! server = Some (pruneQueue (clock i) q).
Proof.
  intros Hr Hq.
  apply (rangeOf_elem m tr) in Hq; [|done].
  apply list_elem_of_lookup in Hq as [i Hi].
  exists i. split; [done|]. unfold reduceTraffic.
  by rewrite (reduceTrafficLoop_visited clock 0 tr m i server q)
    by eauto using rangeOf_NoDup.
Qed.

End Sweeper.

Section Prune.

Implicit Types (m : ledger) (tr : list (string * queue)) (q : queue).

(** C2. One tick of the sweeper, whatever the order in which it visits
    the ledger: for every backend, with [now] the clock reading taken
    when the backend is visited, the new queue is the old one without
    exactly the samples whose timestamp is [<= now - 5s]; the samples
    kept are in their old order, and each has a timestamp [> now - 5s]. *)
Theorem prune_pass clock m tr server q :
  rangeOf m tr ->
  m !! server = Some q ->
  exists i q',
    tr !! i = Some (server, q) /\
    reduceTraffic clock tr m !! server = Some q' /\
    q' = filter (fun st => ~ timestamp st <= clock i - 5 * Second) q /\
    sublist q' q /\
    Forall (fun st => timestamp st > clock i - 5 * Second) q'.
Proof.
  intros Hr Hq.
  destruct (reduceTraffic_lookup clock m tr server q Hr Hq) as (i & Hi & Hq').
  exists i, (pruneQueue (clock i) q).
  split; [done|]. split; [done|].
  rewrite pruneQueue_filter. split_and!.
  - apply list_filter_iff. intros st. lia.
  - apply sublist_filter.
  - apply Forall_forall. intros st Hst.
    apply list_elem_of_filter in Hst as [Hst _]. lia.
Qed.

Lemma prune_pass_witness :
  let old := SizeTimestamp 100 0 in
  let fresh := SizeTimestamp 20 (8 * Second) in
  let m : ledger := {[ "server1:8080" := [old; fresh] ]} in
  let tr := [("server1:8080", [old; fresh])] in
  let clock := fun _ : nat => 10 * Second in
  exists i q',
    tr !! i = Some ("server1:8080", [old; fresh]) /\
    reduceTraffic clock tr m !! "server1:8080" = Some q' /\
    q' = filter (fun st => ~ timestamp st <= clock i - 5 * Second) [old; fresh] /\
    sublist q' [old; fresh] /\
    Forall (fun st => timestamp st > clock i - 5 * Second) q'.
Proof.
  intros old fresh m tr clock.
  apply (prune_pass clock m tr "server1:8080" [old; fresh]).
  - apply rangeOf_singleton.
  - reflexivity.
Defined.

(** The boundary: a sample exactly five seconds old goes, a sample one
    nanosecond younger stays. *)
Example prune_boundary :
  pruneQueue (10 * Second)
    [SizeTimestamp 1 (5 * Second); SizeTimestamp 2 (5 * Second + 1)]
  = [SizeTimestamp 2 (5 * Second + 1)].
Proof. reflexivity. Qed.

(** A tick neither adds nor drops a backend. *)
Lemma reduceTraffic_keys clock m tr server :
  rangeOf m tr ->
  is_Some (reduceTraffic clock tr m !! server) <-> is_Some (m !! server).
Proof.
  intros Hr. split.
  - intros Hs. destruct (m !! server) as [q|] eqn:Hq; [by eexists|].
    unfold reduceTraffic in Hs.
    rewrite reduceTrafficLoop_other, Hq in Hs; [done|].
    intros Hin. apply list_elem_of_fmap in Hin as ([k q] & -> & Hin).
    apply (rangeOf_elem m tr) in Hin; [|done]. simpl in Hq. congruence.
  - intros [q Hq].
    destruct (reduceTraffic_lookup clock m tr server q Hr Hq) as (i & _ & Hq').
    by eexists.
Qed.

(** When the clock does not advance during the tick, every queue is
    pruned against the same instant. *)
Lemma reduceTraffic_fmap now m tr :
  rangeOf m tr ->
  reduceTraffic (fun _ => now) tr m = pruneQueue now <$> m.
Proof.
  intros Hr. apply map_eq. intros server. rewrite lookup_fmap.
  destruct (m !! server) as [q|] eqn:Hq; simpl.
  - by destruct (reduceTraffic_lookup (fun _ => now) m tr server q Hr Hq) as (i & _ & ->).
  - destruct (reduceTraffic (fun _ => now) tr m !! server) as [q'|] eqn:Hq'; [|done].
    assert (Hs : is_Some (m !! server)).
    { apply (reduceTraffic_keys (fun _ => now) m tr server Hr). by eexists. }
    rewrite Hq in Hs. by destruct Hs.
Qed.

End Prune.

(** ** The forwarder *)

Section Forwarder.

Implicit Types (c : config) (w : world) (dst server : string) (r : request)
  (s : procState) (m : ledger).

Lemma copyValues_spec k calls values :
  copyValues k calls values = calls ++ (HeaderAdd k <$> values).
Proof.
  unfold copyValues. revert calls.
  induction values as [|v values IH]; intros calls; simpl.
  - by rewrite app_nil_r.
  - rewrite IH. by rewrite <- app_assoc.
Qed.

Lemma copyHeaders_spec calls hdr :
  copyHeaders calls hdr = calls ++ flat_map (fun kv => HeaderAdd kv.1 <$> kv.2) hdr.
Proof.
  unfold copyHeaders. revert calls.
  induction hdr as [|[k values] hdr IH]; intros calls; simpl.
  - by rewrite app_nil_r.
  - rewrite IH, copyValues_spec. by rewrite <- app_assoc.
Qed.

Lemma queueOf_insert_eq m dst q : queueOf (<[dst := q]> m) dst = q.
Proof. unfold queueOf. by rewrite lookup_insert_eq. Qed.

Lemma queueOf_insert_ne m dst server q :
  server <> dst -> queueOf (<[dst := q]> m) server = queueOf m server.
Proof. intros Hne. unfold queueOf. by rewrite lookup_insert_ne. Qed.

(** The three ways out of [forward]. *)
Lemma forward_no_response c w dst r s err :
  Do w (fwdRequest c dst r) = inl err ->
  forward c w dst r s =
    (ProcState (traffic s)
               (rw s ++ [WriteHeader StatusServiceUnavailable])
               (logged s ++ [LogNoResponse dst err])
               (sent s ++ [fwdRequest c dst r]),
     Some err).
Proof. intros HDo. unfold forward. by rewrite HDo. Qed.

Lemma forward_unreadable c w dst r s resp err :
  Do w (fwdRequest c dst r) = inr resp ->
  Body resp = inl err ->
  forward c w dst r s =
    (ProcState (traffic s)
               (rw s ++ [WriteHeader StatusInternalServerError])
               (logged s ++ [LogReadFailed err])
               (sent s ++ [fwdRequest c dst r]),
     Some err).
Proof. intros HDo HBody. unfold forward. by rewrite HDo, HBody. Qed.

Lemma forward_relayed c w dst r s resp bodyBytes :
  Do w (fwdRequest c dst r) = inr resp ->
  Body resp = inr bodyBytes ->
  let s' := (forward c w dst r s).1 in
  traffic s' = (incrementTraffic (Now w) dst (len bodyBytes) (traffic s)).1 /\
  rw s' = rw s
          ++ flat_map (fun kv => HeaderAdd kv.1 <$> kv.2) (Header resp)
          ++ (if traceEnabled (flagValues c) then [HeaderSet "lb-from" dst] else [])
          ++ [WriteHeader (StatusCode resp); Write bodyBytes] /\
  sent s' = sent s ++ [fwdRequest c dst r] /\
  (forward c w dst r s).2 = None.
Proof.
  intros HDo HBody. unfold forward. rewrite HDo, HBody. simpl.
  split_and!; try done.
  rewrite copyHeaders_spec.
  destruct (traceEnabled (flagValues c)); by rewrite <- ?app_assoc.
Qed.

Lemma HeaderSet_not_copied k v hdr :
  HeaderSet k v ∉ flat_map (fun kv => HeaderAdd kv.1 <$> kv.2) hdr.
Proof.
  intros Hin. apply list_elem_of_In, in_flat_map in Hin as (kv & _ & Hin).
  apply list_elem_of_In, list_elem_of_fmap in Hin as (v' & Heq & _). done.
Qed.

End Forwarder.

(** ** The ResponseWriter *)

Section Writer.

Implicit Types (h : header) (st : responseWriter) (hdr : list (string * list string))
  (k key : string).










End Writer.

Section Forwarding.

Implicit Types (c : config) (w : world) (dst server : string) (r : request)
  (s : procState).

(** C3. When the backend answers and its body of [S] bytes is read, the
    chosen backend's queue gains one sample of size [S] stamped with the
    current time, so its summed load becomes the old sum plus [S] in
    [int] arithmetic, which is exactly [S] more whenever that sum fits an
    [int]; every other backend's queue, and so its load, is unchanged. *)
Theorem forward_records_body_size c w dst r s resp bodyBytes :
  Do w (fwdRequest c dst r) = inr resp ->
  Body resp = inr bodyBytes ->
  let s' := (forward c w dst r s).1 in
  traffic s' !! dst
    = Some (queueOf (traffic s) dst ++ [SizeTimestamp (len bodyBytes) (Now w)]) /\
  load (traffic s') dst = addInt (load (traffic s) dst) (len bodyBytes) /\
  (load (traffic s) dst + len bodyBytes <= maxInt ->
   load (traffic s') dst = load (traffic s) dst + len bodyBytes) /\
  (forall server, server <> dst ->
     traffic s' !! server = traffic s !! server /\
     load (traffic s') server = load (traffic s) server).
Proof.
  intros HDo HBody s'.
  destruct (forward_relayed c w dst r s resp bodyBytes HDo HBody) as (Ht & _).
  subst s'. rewrite Ht. unfold incrementTraffic. simpl.
  assert (Hload : load (<[dst := queueOf (traffic s) dst
                            ++ [SizeTimestamp (len bodyBytes) (Now w)]]> (traffic s)) dst
                  = addInt (load (traffic s) dst) (len bodyBytes)).
  { unfold load. by rewrite queueOf_insert_eq, sumSizes_snoc. }
  split_and!.
  - by rewrite lookup_insert_eq.
  - done.
  - intros Hfit. rewrite Hload. apply addInt_exact.
    pose proof (sumSizes_range (queueOf (traffic s) dst)) as [Hlo _].
    pose proof (len_nonneg bodyBytes).
    unfold load in *. unfold inRange. lia.
  - intros server Hne. split.
    + by rewrite lookup_insert_ne.
    + unfold load. by rewrite queueOf_insert_ne.
Qed.

Lemma forward_records_body_size_witness :
  let s := ProcState sampleLedger [] [] [] in
  let s' := (forward (sampleConfig true) answering "server1:8080" sampleRequest s).1 in
  traffic s' !! "server1:8080"
    = Some (queueOf (traffic s) "server1:8080"
            ++ [SizeTimestamp (len sampleBody) (Now answering)]) /\
  load (traffic s') "server1:8080" = addInt (load (traffic s) "server1:8080") (len sampleBody) /\
  (load (traffic s) "server1:8080" + len sampleBody <= maxInt ->
   load (traffic s') "server1:8080" = load (traffic s) "server1:8080" + len sampleBody) /\
  (forall server, server <> "server1:8080" ->
     traffic s' !! server = traffic s !! server /\
     load (traffic s') server = load (traffic s) server).
Proof.
  intros s.
  apply (forward_records_body_size (sampleConfig true) answering "server1:8080"
           sampleRequest s sampleResponse sampleBody); reflexivity.
Defined.

(** On the sample ledger the load of the chosen backend goes from 100 to
    105 and the other two stay at 0. *)
Example forward_records_sample :
  let s' := (forward (sampleConfig true) answering "server1:8080" sampleRequest
               (ProcState sampleLedger [] [] [])).1 in
  load sampleLedger "server1:8080" = 100 /\
  load (traffic s') "server1:8080" = 105 /\
  load (traffic s') "server2:8080" = 0 /\
  load (traffic s') "server3:8080" = 0.
Proof. vm_compute. done. Qed.

(** C4. When the backend call fails in the transport, [forward] calls
    [WriteHeader(503)] and nothing else on the ResponseWriter, leaves the
    ledger as it was, and returns the error. *)
Theorem forward_transport_failure c w dst r s err :
  Do w (fwdRequest c dst r) = inl err ->
  rw (forward c w dst r s).1 = rw s ++ [WriteHeader StatusServiceUnavailable] /\
  traffic (forward c w dst r s).1 = traffic s /\
  (forall server, load (traffic (forward c w dst r s).1) server = load (traffic s) server) /\
  (forward c w dst r s).2 = Some err.
Proof.
  intros HDo. by rewrite (forward_no_response c w dst r s err HDo).
Qed.

Lemma forward_transport_failure_witness :
  let s := ProcState sampleLedger [] [] [] in
  let out := forward (sampleConfig false) unreachable "server2:8080" sampleRequest s in
  rw out.1 = rw s ++ [WriteHeader StatusServiceUnavailable] /\
  traffic out.1 = traffic s /\
  (forall server, load (traffic out.1) server = load (traffic s) server) /\
  out.2 = Some ConnectionRefused.
Proof.
  intros s.
  apply (forward_transport_failure (sampleConfig false) unreachable "server2:8080"
           sampleRequest s ConnectionRefused); reflexivity.
Defined.




(** A status code outside 100..999 is refused by the ResponseWriter. *)
Example forward_status_refused :
  rwPanicked
    (replay (rw (forward (sampleConfig false)
                   (World (fun _ => inr (Response 99 [] (inr []))) 0 None)
                   "server2:8080" sampleRequest (ProcState sampleLedger [] [] [])).1)
            freshWriter) = true.
Proof. reflexivity. Qed.

(** The calls on the sample response, with tracing and without it. *)
Example forward_relays_sample_traced :
  rw (forward (sampleConfig true) answering "server2:8080" sampleRequest
        (ProcState sampleLedger [] [] [])).1
  = [HeaderAdd "Content-Type" "text/plain";
     HeaderAdd "Set-Cookie" "a=1"; HeaderAdd "Set-Cookie" "b=2";
     HeaderSet "lb-from" "server2:8080";
     WriteHeader 200; Write sampleBody].
Proof. reflexivity. Qed.

Example forward_relays_sample_untraced :
  rw (forward (sampleConfig false) answering "server2:8080" sampleRequest
        (ProcState sampleLedger [] [] [])).1
  = [HeaderAdd "Content-Type" "text/plain";
     HeaderAdd "Set-Cookie" "a=1"; HeaderAdd "Set-Cookie" "b=2";
     WriteHeader 200; Write sampleBody].
Proof. reflexivity. Qed.

(** C7. When the backend answers but its body cannot be read, [forward]
    calls [WriteHeader(500)] and nothing else on the ResponseWriter (so
    no body byte is written), leaves the ledger as it was, and returns
    the error. *)
Theorem forward_read_failure c w dst r s resp err :
  Do w (fwdRequest c dst r) = inr resp ->
  Body resp = inl err ->
  rw (forward c w dst r s).1 = rw s ++ [WriteHeader StatusInternalServerError] /\
  traffic (forward c w dst r s).1 = traffic s /\
  (forall server, load (traffic (forward c w dst r s).1) server = load (traffic s) server) /\
  (forward c w dst r s).2 = Some err.
Proof.
  intros HDo HBody. by rewrite (forward_unreadable c w dst r s resp err HDo HBody).
Qed.

Lemma forward_read_failure_witness :
  let s := ProcState sampleLedger [] [] [] in
  let out := forward (sampleConfig true) truncated "server2:8080" sampleRequest s in
  rw out.1 = rw s ++ [WriteHeader StatusInternalServerError] /\
  traffic out.1 = traffic s /\
  (forall server, load (traffic out.1) server = load (traffic s) server) /\
  out.2 = Some UnexpectedEOF.
Proof.
  intros s.
  apply (forward_read_failure (sampleConfig true) truncated "server2:8080"
           sampleRequest s (Response 200 [] (inl UnexpectedEOF)) UnexpectedEOF);
    reflexivity.
Defined.

End Forwarding.

(** ** The health probe *)

Section Health.

Implicit Types (c : config) (do : transport) (dst : string).

(** C6 (as amended). The probe sends [GET {scheme}://{dst}/health] under
    the timeout and returns [true] exactly when the call returns a
    response whose status code is 200; a transport error, a timeout or
    any other status code, the other 2xx codes included, gives [false].
    The probe is a total function: it returns for every outcome of the
    call. *)
Theorem health_true_iff c do dst :
  (Method (healthRequest c dst) = "GET" /\
   URL (healthRequest c dst) = Url (scheme c) dst "/health" "") /\
  (health c do dst = true <->
   exists resp, do (healthRequest c dst) = inr resp /\ StatusCode resp = 200) /\
  (forall err, do (healthRequest c dst) = inl err -> health c do dst = false) /\
  (forall resp, do (healthRequest c dst) = inr resp -> StatusCode resp <> 200 ->
                health c do dst = false).
Proof.
  split; [done|]. unfold health, StatusOK.
  destruct (do (healthRequest c dst)) as [err|resp]; split_and!.
  - split; [done|]. by intros (resp & ? & _).
  - done.
  - done.
  - case_decide as Hcode; split; [done| |intros _|done].
    + intros (resp' & Heq & Hok). injection Heq as <-. done.
    + exists resp. split; [done|]. lia.
  - done.
  - intros resp' Heq Hne. injection Heq as <-. by rewrite decide_True.
Qed.

(** C6 (as stated) fails for a backend that answers 204: the status is of
    the success class and the probe returns [false]. *)
Lemma health_success_class_counterexample :
  let c := sampleConfig false in
  (exists resp, noContent (healthRequest c "server1:8080") = inr resp /\
                successClass (StatusCode resp)) /\
  health c noContent "server1:8080" = false.
Proof.
  split; [|reflexivity].
  eexists. split; [reflexivity|]. unfold successClass. simpl. lia.
Qed.

Example health_unreachable :
  health (sampleConfig false) (Do unreachable) "non-existing-server:8080" = false.
Proof. reflexivity. Qed.

Example health_ok :
  health (sampleConfig false) (Do answering) "server1:8080" = true.
Proof. reflexivity. Qed.

End Health.

(** ** The request handler *)

Section Handler.

Implicit Types (c : config) (w : world) (m : ledger) (tr : list (string * queue))
  (r : request) (s : procState).

Lemma serve_no_server c w tr r m :
  minTrafficServer tr = "" ->
  serve c w tr r m
  = ProcState m [WriteHeader StatusServiceUnavailable] [LogNoServers] [].
Proof. intros Hsel. unfold serve, handler. by rewrite Hsel, decide_True. Qed.

Lemma serve_forwards c w tr r m :
  minTrafficServer tr <> "" ->
  serve c w tr r m = (forward c w (minTrafficServer tr) r (ProcState m [] [] [])).1.
Proof. intros Hsel. unfold serve, handler. by rewrite decide_False. Qed.

Lemma forward_sent c w dst r s :
  sent (forward c w dst r s).1 = sent s ++ [fwdRequest c dst r].
Proof.
  unfold forward. destruct (Do w _) as [err|resp]; [done|].
  destruct (Body resp) as [err|bodyBytes]; done.
Qed.

Lemma forward_not_LogNoServers c w dst r s :
  LogNoServers ∈ logged (forward c w dst r s).1 -> LogNoServers ∈ logged s.
Proof.
  unfold forward. destruct (Do w _) as [err|resp]; simpl.
  { rewrite elem_of_app, list_elem_of_singleton. by intros [?|?]. }
  destruct (Body resp) as [err|bodyBytes]; simpl.
  { rewrite elem_of_app, list_elem_of_singleton. by intros [?|?]. }
  destruct (WriteError w) as [err|]; simpl;
    rewrite ?elem_of_app, ?elem_of_cons, ?elem_of_nil; intuition discriminate.
Qed.

(** The branch taken shows in the log. *)
Lemma serve_LogNoServers c w tr r m :
  LogNoServers ∈ logged (serve c w tr r m) <-> minTrafficServer tr = "".
Proof.
  split.
  - intros Hin. destruct (decide (minTrafficServer tr = "")) as [|Hne]; [done|].
    rewrite serve_forwards in Hin by done.
    apply forward_not_LogNoServers in Hin. by apply elem_of_nil in Hin.
  - intros Hsel. rewrite serve_no_server by done. simpl.
    by apply list_elem_of_singleton.
Qed.

(** A request served from a backend that answers: the sample lands in
    the queue of the backend the loop selected. *)
Lemma serve_records c w tr r m resp bodyBytes :
  minTrafficServer tr <> "" ->
  Do w (fwdRequest c (minTrafficServer tr) r) = inr resp ->
  Body resp = inr bodyBytes ->
  traffic (serve c w tr r m)
  = <[minTrafficServer tr :=
        queueOf m (minTrafficServer tr) ++ [SizeTimestamp (len bodyBytes) (Now w)]]> m.
Proof.
  intros Hsel HDo HBody. rewrite serve_forwards by done.
  by destruct (forward_relayed c w (minTrafficServer tr) r (ProcState m [] [] [])
                 resp bodyBytes HDo HBody) as (-> & _).
Qed.

Lemma initTraffic_nil m : initTraffic [] m = m.
Proof. reflexivity. Qed.

Lemma initTraffic_lookup pool m server :
  initTraffic pool m !! server
  = if decide (server ∈ pool) then Some [] else m !! server.
Proof.
  unfold initTraffic. revert m.
  induction pool as [|k pool IH]; intros m; cbn [foldl].
  - case_decide as Hin; [by apply elem_of_nil in Hin|done].
  - rewrite IH. clear IH. destruct (decide (server ∈ pool)) as [Hin|Hnot].
    + rewrite decide_True; [done|]. by right.
    + destruct (decide (server = k)) as [->|Hne].
      * rewrite lookup_insert_eq. rewrite decide_True; [done|]. by left.
      * rewrite lookup_insert_ne by done.
        rewrite decide_False; [done|]. by rewrite not_elem_of_cons.
Qed.

End Handler.

Section EmptyPool.

Implicit Types (c : config) (m : ledger) (evs : list event).

Lemma reduceTraffic_empty clock tr : rangeOf ∅ tr -> reduceTraffic clock tr ∅ = ∅.
Proof. intros Hr. by rewrite (rangeOf_empty tr Hr). Qed.

Lemma serve_empty c w tr r :
  rangeOf ∅ tr ->
  serve c w tr r ∅ = ProcState ∅ [WriteHeader StatusServiceUnavailable] [LogNoServers] [].
Proof. intros Hr. rewrite (rangeOf_empty tr Hr). by apply serve_no_server. Qed.

Lemma run_empty c evs :
  Forall validEvent evs ->
  (run c evs ∅).1 = ∅ /\
  length (run c evs ∅).2 = length (filter (fun e => isDispatch e = true) evs) /\
  Forall (fun s => rw s = [WriteHeader StatusServiceUnavailable]
                   /\ sent s = [] /\ traffic s = ∅) (run c evs ∅).2.
Proof.
  induction 1 as [|e evs He _ IH]; [done|].
  destruct IH as (IHm & IHn & IHall).
  destruct e as [w order r|clock order]; simpl in He |- *.
  - rewrite serve_empty by apply He. simpl.
    destruct (run c evs ∅) as [m' out]. simpl in *.
    split_and!; [done|by f_equal|]. by constructor.
  - rewrite reduceTraffic_empty by apply He.
    by rewrite filter_cons_False by done.
Qed.

(** C8. With no backend configured the ledger [main] creates is empty
    and stays empty, and every request, whenever it arrives among the
    sweeper's ticks, is answered by [WriteHeader(503)] alone, with no
    request sent to any backend. The handler has no operation that can
    panic on this path: it is a total function of its inputs. *)
Theorem empty_pool_unavailable c evs :
  serversPool c = [] ->
  Forall validEvent evs ->
  let out := run c evs (initTraffic (serversPool c) ∅) in
  initTraffic (serversPool c) ∅ = ∅ /\
  out.1 = ∅ /\
  length out.2 = length (filter (fun e => isDispatch e = true) evs) /\
  Forall (fun s => rw s = [WriteHeader StatusServiceUnavailable]
                   /\ sent s = [] /\ traffic s = ∅) out.2.
Proof.
  intros Hpool Hev. rewrite Hpool, initTraffic_nil. simpl.
  split; [done|]. by apply run_empty.
Qed.

Lemma validOrder_map_to_list : validOrder map_to_list.
Proof. intros m. apply rangeOf_map_to_list. Qed.

Lemma sampleEvents_valid : Forall validEvent sampleEvents.
Proof. repeat constructor; apply validOrder_map_to_list. Qed.

Lemma empty_pool_unavailable_witness :
  let out := run emptyPoolConfig sampleEvents
               (initTraffic (serversPool emptyPoolConfig) ∅) in
  initTraffic (serversPool emptyPoolConfig) ∅ = ∅ /\
  out.1 = ∅ /\
  length out.2 = length (filter (fun e => isDispatch e = true) sampleEvents) /\
  Forall (fun s => rw s = [WriteHeader StatusServiceUnavailable]
                   /\ sent s = [] /\ traffic s = ∅) out.2.
Proof.
  apply (empty_pool_unavailable emptyPoolConfig sampleEvents).
  - reflexivity.
  - apply sampleEvents_valid.
Defined.

End EmptyPool.

Section NoServers.

Implicit Types (c : config) (w : world) (m : ledger) (tr : list (string * queue))
  (r : request).

(** A sum below the largest [int] makes the loop end on a key of the
    ledger. *)
Lemma minTrafficServer_key m tr :
  rangeOf m tr ->
  (exists k q, m !! k = Some q /\ sumSizes q < maxInt) ->
  is_Some (m !! minTrafficServer tr).
Proof.
  intros Hr (k & q & Hk & Hlt).
  assert (Hin : (k, q) ∈ tr) by by apply (rangeOf_elem m).
  destruct (selectLoop_some tr (k, q) Hin Hlt)
    as (pre & [server q'] & post & Htr & Hsel & _).
  unfold minTrafficServer. rewrite Hsel. simpl. exists q'.
  apply (rangeOf_elem m tr); [done|].
  rewrite Htr, elem_of_app, elem_of_cons. auto.
Qed.

Lemma minTrafficServer_empty_name m tr :
  rangeOf m tr ->
  m !! "" = None ->
  minTrafficServer tr = "" ->
  forall k q, m !! k = Some q -> sumSizes q = maxInt.
Proof.
  intros Hr Hname Hsel k q Hk.
  pose proof (sumSizes_le_maxInt q) as Hle.
  destruct (decide (sumSizes q = maxInt)) as [|Hne]; [done|].
  destruct (minTrafficServer_key m tr Hr) as [q' Hq'].
  { exists k, q. split; [done|lia]. }
  rewrite Hsel in Hq'. congruence.
Qed.

(** C10. Take a ledger whose backends all have a name (none is the empty
    string), in any visiting order. If the ledger is not empty and some
    backend's sum is below the largest [int], the loop ends on a backend
    of the ledger and the handler forwards to it instead of answering
    "No servers available". Conversely that answer is given only when
    the ledger is empty or every backend's sum is the largest [int]. *)
Theorem no_servers_only_without_candidates c w m tr r :
  rangeOf m tr ->
  m !! "" = None ->
  (m <> ∅ ->
   (exists k q, m !! k = Some q /\ sumSizes q < maxInt) ->
   is_Some (m !! minTrafficServer tr) /\
   (LogNoServers ∉ logged (serve c w tr r m)) /\
   sent (serve c w tr r m) = [fwdRequest c (minTrafficServer tr) r]) /\
  (LogNoServers ∈ logged (serve c w tr r m) ->
   m = ∅ \/ forall k q, m !! k = Some q -> sumSizes q = maxInt).
Proof.
  intros Hr Hname. split.
  - intros _ Hex.
    pose proof (minTrafficServer_key m tr Hr Hex) as Hkey.
    assert (Hne : minTrafficServer tr <> "").
    { intros Heq. rewrite Heq, Hname in Hkey. by destruct Hkey. }
    split_and!; [done| |].
    + by rewrite serve_LogNoServers.
    + rewrite serve_forwards by done. by rewrite forward_sent.
  - rewrite serve_LogNoServers. intros Hsel. right.
    by apply (minTrafficServer_empty_name m tr).
Qed.

Lemma no_servers_only_without_candidates_witness :
  let m := sampleLedger in
  let tr := map_to_list sampleLedger in
  let c := sampleConfig true in
  (rangeOf m tr /\ m !! "" = None /\ m <> ∅ /\
   exists k q, m !! k = Some q /\ sumSizes q < maxInt) /\
  is_Some (m !! minTrafficServer tr) /\
  (LogNoServers ∉ logged (serve c answering tr sampleRequest m)) /\
  sent (serve c answering tr sampleRequest m)
    = [fwdRequest c (minTrafficServer tr) sampleRequest].
Proof.
  intros m tr c.
  assert (Hr : rangeOf m tr) by apply rangeOf_map_to_list.
  assert (Hname : m !! "" = None) by reflexivity.
  assert (Hne : m <> ∅).
  { intros Heq. assert (Hk : m !! "server2:8080" = Some []) by reflexivity.
    rewrite Heq in Hk. discriminate. }
  assert (Hex : exists k q, m !! k = Some q /\ sumSizes q < maxInt).
  { exists "server2:8080", []. split; [reflexivity|]. vm_compute. reflexivity. }
  split; [done|].
  exact (proj1 (no_servers_only_without_candidates c answering m tr sampleRequest
                  Hr Hname) Hne Hex).
Defined.

(** The ledger [main] creates has the pool's names as its keys, so none
    of its backends is named by the empty string. *)
Lemma startup_names args : (startup args).2 !! "" = None.
Proof.
  unfold startup. cbn [snd]. rewrite initTraffic_lookup.
  rewrite decide_False; [done|]. cbn [flagParse serversPool packageInit].
  intros Hin.
  repeat (apply elem_of_cons in Hin as [Hin|Hin]; [discriminate|]).
  by apply elem_of_nil in Hin.
Qed.

(** Both disjuncts occur: the empty ledger, and a ledger whose only
    backend has summed exactly the largest [int]. *)
Example no_servers_empty :
  logged (serve (sampleConfig false) answering [] sampleRequest ∅) = [LogNoServers].
Proof. reflexivity. Qed.

Example no_servers_maxInt :
  logged (serve (sampleConfig false) answering
            [("server1:8080", [SizeTimestamp maxInt 0])] sampleRequest
            {[ "server1:8080" := [SizeTimestamp maxInt 0] ]})
  = [LogNoServers].
Proof. reflexivity. Qed.

End NoServers.

(** ** The timeout *)

Section Timeout.

Implicit Types (c : config) (dst : string) (r : request) (args : cmdLine).

(** The probe and the forwarded call both run under the package's one
    [timeout] variable. *)
Lemma timeout_shared c dst r :
  ctxTimeouts (healthRequest c dst) = [timeout c] /\
  ctxTimeouts (fwdRequest c dst r) = timeout c :: ctxTimeouts r.
Proof. done. Qed.

(** [flag.Parse] stores the command line's value behind [timeoutSec]. *)
Lemma flagParse_timeoutSec args n :
  argTimeoutSec args = Some n ->
  timeoutSec (flagValues (startup args).1) = n.
Proof. intros Harg. simpl. by rewrite Harg. Qed.

(** [timeout] was computed before [main] ran, from the flag's default,
    and [main] never assigns it: it is three seconds on every command
    line. *)
Lemma timeout_fixed_at_init args : timeout (startup args).1 = 3 * Second.
Proof. reflexivity. Qed.

(** C9. The balancer started with [-timeout-sec=10]: the flag holds 10,
    and the duration that bounds both the health probe and the forwarded
    call is still the three seconds computed from the flag's default,
    not ten seconds. *)
Theorem timeout_sec_flag_ignored :
  let c := (startup (CmdLine None (Some 10) None None)).1 in
  timeoutSec (flagValues c) = 10 /\
  timeout c = 3 * Second /\
  timeout c <> 10 * Second /\
  ctxTimeouts (healthRequest c "server1:8080") = [3 * Second] /\
  ctxTimeouts (fwdRequest c "server1:8080" sampleRequest) = [3 * Second].
Proof. vm_compute. split_and!; congruence. Qed.

(** An expired timeout reaches the caller of [Do] as an error, and every
    error takes the same way out of the probe and of [forward]. *)
Lemma health_expiry c (do : transport) dst :
  do (healthRequest c dst) = inl DeadlineExceeded -> health c do dst = false.
Proof. unfold health. by intros ->. Qed.

Lemma forward_expiry_as_any_error c (w1 w2 : world) dst r (s : procState) err :
  Do w1 (fwdRequest c dst r) = inl DeadlineExceeded ->
  Do w2 (fwdRequest c dst r) = inl err ->
  rw (forward c w1 dst r s).1 = rw (forward c w2 dst r s).1 /\
  traffic (forward c w1 dst r s).1 = traffic (forward c w2 dst r s).1.
Proof.
  intros H1 H2.
  by rewrite (forward_no_response _ _ _ _ _ _ H1), (forward_no_response _ _ _ _ _ _ H2).
Qed.

End Timeout.

(** * Further properties of the code *)

(** ** Sums without overflow *)

Section ExactSums.

Implicit Types (q : queue) (m : ledger).

Lemma exactSum_snoc q st : exactSum (q ++ [st]) = exactSum q + size st.
Proof.
  unfold exactSum. induction q as [|st' q IH]; simpl; [lia|]. rewrite IH. lia.
Qed.

Lemma exactSum_nonneg q : sizesNonneg q -> 0 <= exactSum q.
Proof.
  unfold sizesNonneg, exactSum. induction 1 as [|st q Hst _ IH]; simpl; lia.
Qed.

Lemma sumSizes_exactSum q :
  sizesNonneg q -> exactSum q <= maxInt -> sumSizes q = exactSum q.
Proof.
  induction q as [|st q IH] using rev_ind; intros Hnn Hfit; [done|].
  unfold sizesNonneg in Hnn. apply Forall_app in Hnn as [Hq Hst].
  apply Forall_inv in Hst. simpl in Hst.
  rewrite exactSum_snoc in Hfit |- *. rewrite sumSizes_snoc.
  pose proof (exactSum_nonneg q Hq).
  rewrite IH; [|done|lia].
  apply addInt_exact. unfold inRange, minInt, maxInt in *. lia.
Qed.

Lemma exactSum_filter (P : sizeTimestamp -> Prop) `{!forall st, Decision (P st)} q :
  sizesNonneg q -> exactSum (filter P q) <= exactSum q.
Proof.
  unfold sizesNonneg. induction 1 as [|st q Hst _ IH]; [done|].
  destruct (decide (P st)).
  - rewrite filter_cons_True by done. simpl. lia.
  - rewrite filter_cons_False by done. simpl. lia.
Qed.

Lemma sizesNonneg_filter (P : sizeTimestamp -> Prop) `{!forall st, Decision (P st)} q :
  sizesNonneg q -> sizesNonneg (filter P q).
Proof.
  unfold sizesNonneg. rewrite !Forall_forall. intros Hall st Hst.
  apply list_elem_of_filter in Hst as [_ Hst]. by apply Hall.
Qed.

(** X1. For a queue of byte counts whose total fits an [int], the sum
    the loops compute is the exact total, and it is not negative. *)
Theorem sumSizes_is_exact q :
  sizesNonneg q -> exactSum q <= maxInt ->
  sumSizes q = exactSum q /\ 0 <= sumSizes q.
Proof.
  intros Hnn Hfit. rewrite sumSizes_exactSum by done.
  split; [done|]. by apply exactSum_nonneg.
Qed.

Lemma sumSizes_is_exact_witness :
  let q := [SizeTimestamp 100 0; SizeTimestamp 20 1; SizeTimestamp 0 2] in
  sumSizes q = exactSum q /\ 0 <= sumSizes q.
Proof.
  intros q. apply (sumSizes_is_exact q).
  - repeat constructor; simpl; lia.
  - vm_compute. discriminate.
Defined.

(** X2. Pruning never raises a load: for a queue of byte counts whose
    total fits an [int], the sum of what a tick keeps is at most the sum
    before. *)
Theorem pruneQueue_load_le now q :
  sizesNonneg q -> exactSum q <= maxInt ->
  sumSizes (pruneQueue now q) <= sumSizes q.
Proof.
  intros Hnn Hfit. rewrite pruneQueue_filter.
  pose proof (exactSum_filter (fun st => now - 5 * Second < timestamp st) q Hnn).
  rewrite !sumSizes_exactSum; auto using sizesNonneg_filter. lia.
Qed.

Lemma pruneQueue_load_le_witness :
  let q := [SizeTimestamp 100 0; SizeTimestamp 20 (8 * Second)] in
  sumSizes (pruneQueue (10 * Second) q) <= sumSizes q.
Proof.
  intros q. apply (pruneQueue_load_le (10 * Second) q).
  - repeat constructor; simpl; lia.
  - vm_compute. discriminate.
Defined.

(** Without the bound the statement fails: dropping a sample can undo a
    wrap-around. *)
Example pruneQueue_load_wrapped :
  let q := [SizeTimestamp 1 0; SizeTimestamp maxInt (8 * Second)] in
  sumSizes q = minInt /\ sumSizes (pruneQueue (10 * Second) q) = maxInt.
Proof. split; reflexivity. Qed.

End ExactSums.

(** ** More on the sweeper *)

Section SweeperMore.

Implicit Types (m : ledger) (tr : list (string * queue)) (q : queue).

Lemma pruneQueue_compose now1 now2 q :
  now1 <= now2 -> pruneQueue now2 (pruneQueue now1 q) = pruneQueue now2 q.
Proof.
  intros Hle. rewrite !pruneQueue_filter.
  apply list_filter_filter_l. intros st. lia.
Qed.

Lemma pruneQueue_all_fresh now q :
  Forall (fun st => now - 5 * Second < timestamp st) q -> pruneQueue now q = q.
Proof.
  rewrite pruneQueue_filter. induction 1 as [|st q Hst _ IH]; [done|].
  rewrite filter_cons_True by done. by rewrite IH.
Qed.

Lemma pruneQueue_all_stale now q :
  Forall (fun st => timestamp st <= now - 5 * Second) q -> pruneQueue now q = [].
Proof.
  rewrite pruneQueue_filter. induction 1 as [|st q Hst _ IH]; [done|].
  rewrite filter_cons_False by lia. done.
Qed.

(** X3. A tick that comes late loses nothing: after an earlier tick, the
    queue a later tick leaves for a backend is the queue it would have
    left had the earlier tick never run, whatever the two visiting
    orders. *)
Theorem late_tick_catches_up clock1 clock2 m tr1 tr2 server q :
  rangeOf m tr1 ->
  rangeOf (reduceTraffic clock1 tr1 m) tr2 ->
  (forall i j, clock1 i <= clock2 j) ->
  m !! server = Some q ->
  exists j,
    reduceTraffic clock2 tr2 (reduceTraffic clock1 tr1 m) !! server
    = Some (pruneQueue (clock2 j) q).
Proof.
  intros Hr1 Hr2 Hclock Hq.
  destruct (reduceTraffic_lookup clock1 m tr1 server q Hr1 Hq) as (i & _ & Hq1).
  destruct (reduceTraffic_lookup clock2 _ tr2 server _ Hr2 Hq1) as (j & _ & Hq2).
  exists j. rewrite Hq2. f_equal. by apply pruneQueue_compose.
Qed.

Lemma late_tick_catches_up_witness :
  let q := [SizeTimestamp 100 0; SizeTimestamp 20 (4 * Second);
            SizeTimestamp 5 (8 * Second)] in
  let m : ledger := {[ "server1:8080" := q ]} in
  let clock1 := fun _ : nat => 6 * Second in
  let clock2 := fun _ : nat => 10 * Second in
  let tr1 := [("server1:8080", q)] in
  let tr2 := map_to_list (reduceTraffic clock1 tr1 m) in
  exists j,
    reduceTraffic clock2 tr2 (reduceTraffic clock1 tr1 m) !! "server1:8080"
    = Some (pruneQueue (clock2 j) q).
Proof.
  intros q m clock1 clock2 tr1 tr2.
  apply (late_tick_catches_up clock1 clock2 m tr1 tr2 "server1:8080" q).
  - apply rangeOf_singleton.
  - apply rangeOf_map_to_list.
  - intros i j. unfold clock1, clock2, Second. lia.
  - reflexivity.
Defined.

(** X4. A tick changes nothing in a ledger whose samples are all
    younger than five seconds at every clock reading of the tick. *)
Theorem reduceTraffic_fresh_fixed clock m tr :
  rangeOf m tr ->
  (forall server q, m !! server = Some q ->
     Forall (fun st => forall i, clock i - 5 * Second < timestamp st) q) ->
  reduceTraffic clock tr m = m.
Proof.
  intros Hr Hfresh. apply map_eq. intros server.
  destruct (m !! server) as [q|] eqn:Hq.
  - destruct (reduceTraffic_lookup clock m tr server q Hr Hq) as (i & _ & ->).
    f_equal. apply pruneQueue_all_fresh.
    eapply Forall_impl; [by apply (Hfresh server)|]. auto.
  - destruct (reduceTraffic clock tr m !! server) as [q'|] eqn:Hq'; [|done].
    assert (Hs : is_Some (m !! server)).
    { apply (reduceTraffic_keys clock m tr server Hr). by eexists. }
    rewrite Hq in Hs. by destruct Hs.
Qed.

Lemma reduceTraffic_fresh_fixed_witness :
  let m : ledger := {[ "server1:8080" := [SizeTimestamp 20 (8 * Second)] ]} in
  let tr := [("server1:8080", [SizeTimestamp 20 (8 * Second)])] in
  reduceTraffic (fun _ => 10 * Second) tr m = m.
Proof.
  intros m tr. apply (reduceTraffic_fresh_fixed (fun _ => 10 * Second) m tr).
  - apply rangeOf_singleton.
  - intros server q Hq. unfold m in Hq.
    apply lookup_singleton_Some in Hq as [_ <-].
    repeat constructor.
Defined.

(** X5. A backend that served nothing for five seconds is back at load
    zero: a tick empties every queue whose samples are all five seconds
    old or older when the backend is visited. *)
Theorem reduceTraffic_idle_backend clock m tr server q :
  rangeOf m tr ->
  m !! server = Some q ->
  (forall i, Forall (fun st => timestamp st <= clock i - 5 * Second) q) ->
  reduceTraffic clock tr m !! server = Some [] /\
  load (reduceTraffic clock tr m) server = 0.
Proof.
  intros Hr Hq Hstale.
  destruct (reduceTraffic_lookup clock m tr server q Hr Hq) as (i & _ & Hq').
  rewrite pruneQueue_all_stale in Hq' by apply Hstale.
  split; [done|]. unfold load, queueOf. by rewrite Hq'.
Qed.

Lemma reduceTraffic_idle_backend_witness :
  let q := [SizeTimestamp 100 0; SizeTimestamp 20 (5 * Second)] in
  let m : ledger := {[ "server1:8080" := q ]} in
  let clock := fun _ : nat => 10 * Second in
  reduceTraffic clock [("server1:8080", q)] m !! "server1:8080" = Some [] /\
  load (reduceTraffic clock [("server1:8080", q)] m) "server1:8080" = 0.
Proof.
  intros q m clock.
  apply (reduceTraffic_idle_backend clock m [("server1:8080", q)] "server1:8080" q).
  - apply rangeOf_singleton.
  - reflexivity.
  - intros i. repeat constructor; simpl; unfold clock, Second; lia.
Defined.

End SweeperMore.

(** ** Recording and sweeping together *)

Section RecordAndSweep.

Implicit Types (m : ledger) (tr : list (string * queue)) (q : queue)
  (c : config) (w : world) (s : procState).


Lemma pruneQueue_oldestFirst now q : oldestFirst q -> oldestFirst (pruneQueue now q).
Proof.
  rewrite pruneQueue_filter. unfold oldestFirst.
  induction 1 as [|st q _ IH Hst]; [constructor|].
  destruct (decide (now - 5 * Second < timestamp st)).
  - rewrite filter_cons_True by done. constructor; [done|].
    rewrite Forall_forall in Hst |- *. intros st' Hst'.
    apply list_elem_of_filter in Hst' as [_ Hst']. by apply Hst.
  - by rewrite filter_cons_False by done.
Qed.



(** X7. In a queue that is oldest first, a tick removes a prefix: the
    samples dropped are the first [n] and all the later ones stay. *)
Theorem pruneQueue_drops_oldest now q :
  oldestFirst q ->
  exists n,
    pruneQueue now q = drop n q /\
    Forall (fun st => timestamp st <= now - 5 * Second) (take n q).
Proof.
  unfold oldestFirst. induction 1 as [|st q Hsorted IH Hst].
  - by exists 0%nat.
  - destruct (decide (now - 5 * Second < timestamp st)) as [Hfresh|Hstale].
    + exists 0%nat. split; [|by constructor]. simpl.
      apply pruneQueue_all_fresh. constructor; [done|].
      eapply Forall_impl; [exact Hst|]. simpl. intros st' Hle. lia.
    + destruct IH as (n & Heq & Hall). exists (S n). simpl. split.
      * rewrite <- Heq, !pruneQueue_filter. by rewrite filter_cons_False by done.
      * constructor; [lia|done].
Qed.

Lemma pruneQueue_drops_oldest_witness :
  let q := [SizeTimestamp 100 0; SizeTimestamp 20 (4 * Second);
            SizeTimestamp 5 (8 * Second)] in
  exists n,
    pruneQueue (10 * Second) q = drop n q /\
    Forall (fun st => timestamp st <= 10 * Second - 5 * Second) (take n q).
Proof.
  intros q. apply (pruneQueue_drops_oldest (10 * Second) q).
  repeat constructor; simpl; unfold Second; lia.
Defined.

(** Out of order, what goes need not be a prefix. *)
Example pruneQueue_not_prefix :
  pruneQueue (10 * Second) [SizeTimestamp 1 (8 * Second); SizeTimestamp 2 0]
  = [SizeTimestamp 1 (8 * Second)].
Proof. reflexivity. Qed.

(** X8. The queues stay oldest first: a tick keeps every queue in
    order, and [forward] keeps every queue in order when the clock it
    reads is not behind the timestamps already in the chosen queue. *)
Theorem oldestFirst_kept c w dst r s clock tr :
  rangeOf (traffic s) tr ->
  (forall server q, traffic s !! server = Some q -> oldestFirst q) ->
  (forall server q, reduceTraffic clock tr (traffic s) !! server = Some q ->
                    oldestFirst q) /\
  (Forall (fun st => timestamp st <= Now w) (queueOf (traffic s) dst) ->
   forall server q, traffic (forward c w dst r s).1 !! server = Some q ->
                    oldestFirst q).
Proof.
  intros Hr Hsorted. split.
  - intros server q' Hq'.
    destruct (traffic s !! server) as [q|] eqn:Hq.
    + destruct (reduceTraffic_lookup clock _ tr server q Hr Hq) as (i & _ & Heq).
      rewrite Heq in Hq'. injection Hq' as <-.
      apply pruneQueue_oldestFirst. by apply (Hsorted server).
    + assert (Hs : is_Some (traffic s !! server)).
      { apply (reduceTraffic_keys clock _ tr server Hr). by eexists. }
      rewrite Hq in Hs. by destruct Hs.
  - intros Hclock server q. unfold forward.
    destruct (Do w _) as [err|resp]; [by apply Hsorted|].
    destruct (Body resp) as [err|bodyBytes]; [by apply Hsorted|].
    unfold incrementTraffic. simpl.
    destruct (decide (server = dst)) as [->|Hne].
    + rewrite lookup_insert_eq. intros [= <-].
      apply StronglySorted_app_2.
      * intros st1 st2 Hst1 Hst2. apply list_elem_of_singleton in Hst2 as ->.
        rewrite Forall_forall in Hclock. by apply Hclock.
      * unfold queueOf. destruct (traffic s !! dst) as [q0|] eqn:Hq0; simpl.
        -- by apply (Hsorted dst).
        -- constructor.
      * repeat constructor.
    + rewrite lookup_insert_ne by done. by apply Hsorted.
Qed.

Lemma oldestFirst_kept_witness :
  let s := ProcState sampleLedger [] [] [] in
  let tr := map_to_list sampleLedger in
  let clock := fun _ : nat => 9 * Second in
  (forall server q, reduceTraffic clock tr (traffic s) !! server = Some q ->
                    oldestFirst q) /\
  (Forall (fun st => timestamp st <= Now answering)
          (queueOf (traffic s) "server1:8080") ->
   forall server q,
     traffic (forward (sampleConfig true) answering "server1:8080"
                sampleRequest s).1 !! server = Some q ->
     oldestFirst q).
Proof.
  intros s tr clock.
  apply (oldestFirst_kept (sampleConfig true) answering "server1:8080"
           sampleRequest s clock tr).
  - apply rangeOf_map_to_list.
  - intros server q Hq. simpl in Hq. unfold sampleLedger in Hq.
    repeat (apply lookup_insert_Some in Hq as [[_ <-]|[_ Hq]];
            [repeat constructor|]).
    by rewrite lookup_empty in Hq.
Defined.

End RecordAndSweep.

(** ** More on the selection loop *)

Section SelectionMore.

Implicit Types (m : ledger) (tr : list (string * queue)).

(** [minTraffic] ends as the least of the largest [int] and the sums. *)
Lemma minTraffic_lower tr e : e ∈ tr -> minTraffic tr <= sumSizes e.2.
Proof.
  intros Hin. unfold minTraffic.
  destruct (selectLoop_result tr) as [Hall|pre e0 post -> Hlt Hpre Hpost]; simpl in *.
  - rewrite Forall_forall in Hall. by apply Hall.
  - rewrite Forall_forall in Hpre, Hpost.
    apply elem_of_app in Hin as [Hin|Hin]; [specialize (Hpre _ Hin); lia|].
    apply elem_of_cons in Hin as [->|Hin]; [lia|by apply Hpost].
Qed.

Lemma minTraffic_attained tr :
  minTraffic tr = maxInt \/ exists e, e ∈ tr /\ sumSizes e.2 = minTraffic tr.
Proof.
  unfold minTraffic.
  destruct (selectLoop_result tr) as [Hall|pre e0 post -> Hlt Hpre Hpost]; simpl.
  - by left.
  - right. exists e0. split; [|done]. rewrite elem_of_app, elem_of_cons. auto.
Qed.

Lemma minTraffic_le_maxInt tr : minTraffic tr <= maxInt.
Proof.
  destruct (minTraffic_attained tr) as [->|(e & _ & <-)]; [done|].
  apply sumSizes_le_maxInt.
Qed.

Lemma minTraffic_Permutation tr1 tr2 : tr1 ≡ₚ tr2 -> minTraffic tr1 <= minTraffic tr2.
Proof.
  intros Hp.
  destruct (minTraffic_attained tr2) as [->|(e & Hin & <-)].
  - apply minTraffic_le_maxInt.
  - apply minTraffic_lower. by rewrite Hp.
Qed.

Lemma minTrafficServer_found tr :
  minTrafficServer tr = "" /\ minTraffic tr = maxInt /\
    Forall (fun e => sumSizes e.2 = maxInt) tr
  \/ exists q, (minTrafficServer tr, q) ∈ tr /\ sumSizes q = minTraffic tr
               /\ sumSizes q < maxInt.
Proof.
  unfold minTrafficServer, minTraffic.
  destruct (selectLoop_result tr) as [Hall|pre [k q] post -> Hlt Hpre Hpost]; simpl in *.
  - left. split_and!; [done..|].
    eapply Forall_impl; [exact Hall|]. intros e He. simpl in He.
    pose proof (sumSizes_le_maxInt e.2). lia.
  - right. exists q. split_and!; [|done..].
    rewrite elem_of_app, elem_of_cons. auto.
Qed.

(** X9. The visiting order matters only on ties: for two orders over
    the same ledger the least sum found is the same, and when one
    backend's sum is strictly below all the others' (and below the
    largest [int]) both orders select that backend. *)
Theorem select_order_independent m tr1 tr2 :
  rangeOf m tr1 ->
  rangeOf m tr2 ->
  minTraffic tr1 = minTraffic tr2 /\
  (forall k q,
     m !! k = Some q ->
     sumSizes q < maxInt ->
     (forall k' q', m !! k' = Some q' -> k' <> k -> sumSizes q < sumSizes q') ->
     minTrafficServer tr1 = k /\ minTrafficServer tr2 = k).
Proof.
  intros Hr1 Hr2. split.
  - assert (Hp : tr1 ≡ₚ tr2) by (unfold rangeOf in *; by rewrite Hr1, Hr2).
    apply Z.le_antisymm; by apply minTraffic_Permutation.
  - intros k q Hk Hlt Hleast.
    assert (Hone : forall tr, rangeOf m tr -> minTrafficServer tr = k).
    { intros tr Hr.
      assert (Hin : (k, q) ∈ tr) by by apply (rangeOf_elem m).
      pose proof (minTraffic_lower tr (k, q) Hin) as Hlow. simpl in Hlow.
      destruct (minTrafficServer_found tr) as [(_ & Hmax & _)|(q0 & Hin0 & Hsum & _)];
        [lia|].
      destruct (decide (minTrafficServer tr = k)) as [|Hne]; [done|].
      apply (rangeOf_elem m tr) in Hin0; [|done].
      specialize (Hleast _ _ Hin0 Hne). lia. }
    split; by apply Hone.
Qed.

Lemma select_order_independent_witness :
  let m := sampleLedger in
  let tr1 := map_to_list sampleLedger in
  let tr2 := reverse (map_to_list sampleLedger) in
  minTraffic tr1 = minTraffic tr2 /\
  (forall k q,
     m !! k = Some q ->
     sumSizes q < maxInt ->
     (forall k' q', m !! k' = Some q' -> k' <> k -> sumSizes q < sumSizes q') ->
     minTrafficServer tr1 = k /\ minTrafficServer tr2 = k).
Proof.
  intros m tr1 tr2. apply (select_order_independent m tr1 tr2).
  - apply rangeOf_map_to_list.
  - unfold rangeOf, tr2. apply reverse_Permutation.
Defined.

(** X10. When the backend visited first has a least sum, below the
    largest [int], it is the one selected: on a ledger whose loads are
    all equal, as after startup, the request goes to whichever backend
    the runtime visits first. *)
Theorem select_first_visited e rest :
  sumSizes e.2 < maxInt ->
  Forall (fun e' => sumSizes e.2 <= sumSizes e'.2) rest ->
  minTrafficServer (e :: rest) = e.1 /\ minTraffic (e :: rest) = sumSizes e.2.
Proof.
  intros Hlt Hrest.
  destruct (selectLoop_some (e :: rest) e) as (pre & e0 & post & Htr & Hsel & Hpre & _);
    [by left|done|].
  unfold minTrafficServer, minTraffic. rewrite Hsel. simpl.
  destruct pre as [|e1 pre]; simpl in Htr.
  - by injection Htr as <- _.
  - injection Htr as <- ->.
    apply Forall_cons in Hpre as [Hlt1 _].
    rewrite Forall_app, Forall_cons in Hrest. destruct Hrest as (_ & Hle & _). lia.
Qed.

Lemma select_first_visited_witness :
  minTrafficServer [("server3:8080", []); ("server1:8080", []); ("server2:8080", [])]
    = "server3:8080" /\
  minTraffic [("server3:8080", []); ("server1:8080", []); ("server2:8080", [])]
    = sumSizes [].
Proof.
  apply (select_first_visited ("server3:8080", [])
           [("server1:8080", []); ("server2:8080", [])]).
  - vm_compute. reflexivity.
  - repeat constructor; vm_compute; discriminate.
Defined.

Lemma sumSizes_sizes (q q' : queue) : size <$> q = size <$> q' -> sumSizes q = sumSizes q'.
Proof.
  unfold sumSizes. generalize 0. revert q'.
  induction q as [|st q IH]; intros [|st' q'] z Heq; try done.
  simpl in *. injection Heq as -> Heq. by apply IH.
Qed.

(** X11. The loop never looks at a timestamp: two visits that meet the
    same backends with the same sizes in their queues select the same
    backend with the same sum, however old the samples are. *)
Theorem select_ignores_timestamps tr tr' :
  Forall2 (fun e e' => e.1 = e'.1 /\ size <$> e.2 = size <$> e'.2) tr tr' ->
  selectLoop tr = selectLoop tr'.
Proof.
  intros Hsame. unfold selectLoop. generalize ("", maxInt).
  induction Hsame as [|e e' tr tr' [Hk Hs] _ IH]; intros acc; [done|].
  simpl. rewrite <- IH. f_equal. unfold selectStep.
  by rewrite (sumSizes_sizes e.2 e'.2 Hs), Hk.
Qed.

Lemma select_ignores_timestamps_witness :
  selectLoop [("server1:8080", [SizeTimestamp 100 0]); ("server2:8080", [])]
  = selectLoop [("server1:8080", [SizeTimestamp 100 (9 * Second)]); ("server2:8080", [])].
Proof.
  apply select_ignores_timestamps. repeat constructor.
Defined.

(** The sample of the expiry test, ten seconds old and not yet swept,
    still keeps its backend from being selected. *)
Example select_counts_stale :
  minTrafficServer [("server1:8080", [SizeTimestamp 100 (-10 * Second)])] = "server1:8080" /\
  minTrafficServer [("server1:8080", [SizeTimestamp 100 (-10 * Second)]);
                    ("server2:8080", [SizeTimestamp 1 0])] = "server2:8080".
Proof. split; reflexivity. Qed.

(** X12. The final check of TestBalancer, which runs the loop again and
    compares [minTraffic] with the summed load of [minTrafficServer]: on
    a ledger with no backend named by the empty string it holds exactly
    when some backend's sum is below the largest [int]; on the empty
    ledger it compares the largest [int] with 0. *)
Theorem test_check_iff m tr :
  rangeOf m tr ->
  m !! "" = None ->
  (minTraffic tr = load m (minTrafficServer tr) <->
   exists k q, m !! k = Some q /\ sumSizes q < maxInt).
Proof.
  intros Hr Hname.
  destruct (minTrafficServer_found tr) as [(Hsel & Hmax & Hall)|(q & Hin & Hsum & Hlt)].
  - rewrite Hsel, Hmax. unfold load, queueOf. rewrite Hname. simpl. split.
    + intros Heq. vm_compute in Heq. discriminate.
    + intros (k & q & Hk & Hlt). apply (rangeOf_elem m tr) in Hk; [|done].
      rewrite Forall_forall in Hall. specialize (Hall _ Hk). simpl in Hall. lia.
  - apply (rangeOf_elem m tr) in Hin; [|done]. split.
    + intros _. by exists (minTrafficServer tr), q.
    + intros _. unfold load, queueOf. by rewrite Hin.
Qed.

Lemma test_check_iff_witness :
  minTraffic (map_to_list sampleLedger)
    = load sampleLedger (minTrafficServer (map_to_list sampleLedger)) <->
  exists k q, sampleLedger !! k = Some q /\ sumSizes q < maxInt.
Proof.
  apply (test_check_iff sampleLedger (map_to_list sampleLedger)).
  - apply rangeOf_map_to_list.
  - reflexivity.
Defined.

End SelectionMore.

(** ** More on the forwarder and the handler *)

Section HandlerMore.

Implicit Types (c : config) (w : world) (m : ledger) (tr : list (string * queue))
  (r : request) (s : procState) (dst server : string).

(** [forward] leaves the ledger alone or appends one sample for [dst]. *)
Lemma forward_traffic_cases c w dst r s :
  traffic (forward c w dst r s).1 = traffic s \/
  exists resp bodyBytes,
    Do w (fwdRequest c dst r) = inr resp /\ Body resp = inr bodyBytes /\
    traffic (forward c w dst r s).1
    = <[dst := queueOf (traffic s) dst ++ [SizeTimestamp (len bodyBytes) (Now w)]]>
        (traffic s).
Proof.
  unfold forward. destruct (Do w _) as [err|resp]; [by left|].
  destruct (Body resp) as [err|bodyBytes] eqn:HBody; [by left|].
  right. by exists resp, bodyBytes.
Qed.

(** The handler leaves the ledger alone or appends one sample to the
    queue of the selected backend, which is one of the ledger's. *)
Lemma serve_traffic_cases c w tr r m :
  rangeOf m tr ->
  traffic (serve c w tr r m) = m \/
  exists q resp bodyBytes,
    m !! minTrafficServer tr = Some q /\
    sumSizes q = minTraffic tr /\
    Do w (fwdRequest c (minTrafficServer tr) r) = inr resp /\
    Body resp = inr bodyBytes /\
    traffic (serve c w tr r m)
    = <[minTrafficServer tr := q ++ [SizeTimestamp (len bodyBytes) (Now w)]]> m.
Proof.
  intros Hr. destruct (decide (minTrafficServer tr = "")) as [Hnone|Hsel].
  { left. by rewrite serve_no_server. }
  rewrite serve_forwards by done.
  destruct (forward_traffic_cases c w (minTrafficServer tr) r (ProcState m [] [] []))
    as [Hsame|(resp & bodyBytes & HDo & HBody & Hnew)]; [by left|].
  right.
  destruct (minTrafficServer_found tr) as [(Hnone & _)|(q & Hin & Hsum & _)]; [done|].
  apply (rangeOf_elem m tr) in Hin; [|done].
  exists q, resp, bodyBytes. split_and!; try done.
  rewrite Hnew. simpl. unfold queueOf. by rewrite Hin.
Qed.

(** X13. Serving a request never removes or reorders a recorded sample:
    whatever the backend does, every queue of the ledger is a prefix of
    the queue the handler leaves, and no backend is added or dropped. *)
Theorem serve_only_appends c w tr r m server :
  rangeOf m tr ->
  queueOf m server `prefix_of` queueOf (traffic (serve c w tr r m)) server /\
  (is_Some (traffic (serve c w tr r m) !! server) <-> is_Some (m !! server)).
Proof.
  intros Hr.
  destruct (serve_traffic_cases c w tr r m Hr)
    as [->|(q & resp & b & Hq & _ & _ & _ & ->)]; [done|].
  destruct (decide (server = minTrafficServer tr)) as [->|Hne].
  - unfold queueOf. rewrite lookup_insert_eq, Hq. simpl.
    split; [by apply prefix_app_r|]. split; by eexists.
  - unfold queueOf. by rewrite lookup_insert_ne.
Qed.

Lemma serve_only_appends_witness :
  let tr := map_to_list sampleLedger in
  queueOf sampleLedger "server2:8080"
    `prefix_of` queueOf (traffic (serve (sampleConfig true) answering tr
                                    sampleRequest sampleLedger)) "server2:8080" /\
  (is_Some (traffic (serve (sampleConfig true) answering tr sampleRequest sampleLedger)
              !! "server2:8080")
   <-> is_Some (sampleLedger !! "server2:8080")).
Proof.
  intros tr.
  apply (serve_only_appends (sampleConfig true) answering tr sampleRequest
           sampleLedger "server2:8080").
  apply rangeOf_map_to_list.
Defined.


(** X15. The handler calls the HTTP client at most once for a request,
    and only for a backend of the ledger: either the loop selected no
    name and [Do] is not called, or [Do] is called once, with a request
    whose host is a key of the ledger; the handler never tries a second
    backend. What the client does with that request, redirects
    included, is the client's. *)
Theorem serve_sends_to_ledger c w tr r m :
  rangeOf m tr ->
  (minTrafficServer tr = "" /\ sent (serve c w tr r m) = []) \/
  (is_Some (m !! minTrafficServer tr) /\
   sent (serve c w tr r m) = [fwdRequest c (minTrafficServer tr) r] /\
   UHost (URL (fwdRequest c (minTrafficServer tr) r)) = minTrafficServer tr).
Proof.
  intros Hr. destruct (decide (minTrafficServer tr = "")) as [Hnone|Hsel].
  { left. by rewrite serve_no_server. }
  right. rewrite serve_forwards, forward_sent by done.
  split; [|done].
  destruct (minTrafficServer_found tr) as [(Hnone & _)|(q & Hin & _)]; [done|].
  apply (rangeOf_elem m tr) in Hin; [|done]. by eexists.
Qed.

Lemma serve_sends_to_ledger_witness :
  let tr := map_to_list sampleLedger in
  (minTrafficServer tr = "" /\
   sent (serve (sampleConfig false) unreachable tr sampleRequest sampleLedger) = []) \/
  (is_Some (sampleLedger !! minTrafficServer tr) /\
   sent (serve (sampleConfig false) unreachable tr sampleRequest sampleLedger)
     = [fwdRequest (sampleConfig false) (minTrafficServer tr) sampleRequest] /\
   UHost (URL (fwdRequest (sampleConfig false) (minTrafficServer tr) sampleRequest))
     = minTrafficServer tr).
Proof.
  intros tr.
  apply (serve_sends_to_ledger (sampleConfig false) unreachable tr sampleRequest
           sampleLedger).
  apply rangeOf_map_to_list.
Defined.

End HandlerMore.

(** ** Invariants of the running balancer *)

Section RunInvariants.

Implicit Types (c : config) (w : world) (m : ledger) (tr : list (string * queue))
  (r : request) (evs : list event).

(** A property of ledgers kept by every request and every tick is kept
    by every run. *)
Lemma run_invariant (I : ledger -> Prop) c :
  (forall w tr r m, rangeOf m tr -> I m -> I (traffic (serve c w tr r m))) ->
  (forall clock tr m, rangeOf m tr -> I m -> I (reduceTraffic clock tr m)) ->
  forall evs m, Forall validEvent evs -> I m -> I (run c evs m).1.
Proof.
  intros Hserve Htick evs. induction evs as [|e evs IH]; intros m Hev Hm; [done|].
  apply Forall_cons in Hev as [He Hev].
  destruct e as [w order r|clock order]; simpl in He |- *.
  - specialize (IH (traffic (serve c w (order m) r m)) Hev
                  (Hserve w (order m) r m (He m) Hm)).
    by destruct (run c evs _).
  - apply IH; [done|]. by apply Htick.
Qed.

(** X16. The set of backends never changes while the balancer runs: no
    request and no tick adds an entry to the ledger or removes one. *)
Theorem run_keeps_backends c evs m :
  Forall validEvent evs ->
  dom (run c evs m).1 = dom m.
Proof.
  intros Hev.
  apply (run_invariant (fun m' => dom m' = dom m) c); [| |done|done].
  - intros w tr r m' Hr <-. apply set_eq. intros server. rewrite !elem_of_dom.
    destruct (serve_traffic_cases c w tr r m' Hr)
      as [->|(q & resp & b & Hq & _ & _ & _ & ->)]; [done|].
    destruct (decide (server = minTrafficServer tr)) as [->|Hne].
    + rewrite lookup_insert_eq, Hq. split; by eexists.
    + by rewrite lookup_insert_ne.
  - intros clock tr m' Hr <-. apply set_eq. intros server. rewrite !elem_of_dom.
    by apply reduceTraffic_keys.
Qed.

Lemma run_keeps_backends_witness :
  dom (run (sampleConfig true) sampleEvents sampleLedger).1 = dom sampleLedger.
Proof.
  apply (run_keeps_backends (sampleConfig true) sampleEvents sampleLedger).
  apply sampleEvents_valid.
Defined.

(** X17. Every size in the ledger is a byte count: if no recorded size
    is negative, none is after any run, since a request records the
    length of a body and a tick only drops samples. *)
Theorem run_keeps_sizesNonneg c evs m :
  Forall validEvent evs ->
  (forall server q, m !! server = Some q -> sizesNonneg q) ->
  forall server q, (run c evs m).1 !! server = Some q -> sizesNonneg q.
Proof.
  intros Hev.
  apply (run_invariant
           (fun m' => forall server q, m' !! server = Some q -> sizesNonneg q) c);
    [| |done].
  - intros w tr r m' Hr Hm' server q.
    destruct (serve_traffic_cases c w tr r m' Hr)
      as [->|(q0 & resp & b & Hq0 & _ & _ & _ & ->)]; [by apply Hm'|].
    destruct (decide (server = minTrafficServer tr)) as [->|Hne].
    + rewrite lookup_insert_eq. intros [= <-]. apply Forall_app. split.
      * by apply (Hm' (minTrafficServer tr)).
      * repeat constructor. apply len_nonneg.
    + rewrite lookup_insert_ne by done. by apply Hm'.
  - intros clock tr m' Hr Hm' server q' Hq'.
    destruct (m' !! server) as [q|] eqn:Hq.
    + destruct (reduceTraffic_lookup clock m' tr server q Hr Hq) as (i & _ & Heq).
      rewrite Heq in Hq'. injection Hq' as <-. rewrite pruneQueue_filter.
      apply sizesNonneg_filter. by apply (Hm' server).
    + assert (Hs : is_Some (m' !! server)).
      { apply (reduceTraffic_keys clock m' tr server Hr). by eexists. }
      rewrite Hq in Hs. by destruct Hs.
Qed.

Lemma sampleLedger_sizesNonneg server q :
  sampleLedger !! server = Some q -> sizesNonneg q.
Proof.
  unfold sampleLedger. intros Hq.
  repeat (apply lookup_insert_Some in Hq as [[_ <-]|[_ Hq]];
          [by repeat constructor|]).
  by rewrite lookup_empty in Hq.
Qed.

Lemma run_keeps_sizesNonneg_witness :
  Forall validEvent sampleEvents /\
  forall server q,
    (run (sampleConfig true) sampleEvents sampleLedger).1 !! server = Some q ->
    sizesNonneg q.
Proof.
  split; [apply sampleEvents_valid|].
  apply (run_keeps_sizesNonneg (sampleConfig true) sampleEvents sampleLedger).
  - apply sampleEvents_valid.
  - apply sampleLedger_sizesNonneg.
Defined.

(** X18. Single-threaded, least-load selection keeps the backends
    level: when nothing else touches the ledger between the handler's
    selection and its recording, if no two backends' sums differ by more
    than [B], they still do not after the request, provided a response
    body that is read has at most [B] bytes and does not take the
    selected backend's sum past the largest [int]. Requests in flight
    together can all record on the backend they all selected. *)
Theorem serve_keeps_balance c w tr r m B :
  rangeOf m tr ->
  (forall k k' q q', m !! k = Some q -> m !! k' = Some q' ->
                     sumSizes q - sumSizes q' <= B) ->
  (forall resp body,
     Do w (fwdRequest c (minTrafficServer tr) r) = inr resp ->
     Body resp = inr body ->
     len body <= B /\ load m (minTrafficServer tr) + len body <= maxInt) ->
  forall k k' q q',
    traffic (serve c w tr r m) !! k = Some q ->
    traffic (serve c w tr r m) !! k' = Some q' ->
    sumSizes q - sumSizes q' <= B.
Proof.
  intros Hr Hbal Hbody k k' q q'.
  destruct (serve_traffic_cases c w tr r m Hr)
    as [->|(q0 & resp & b & Hq0 & Hmin & HDo & HBody & ->)]; [by apply Hbal|].
  destruct (Hbody resp b HDo HBody) as [HB Hfit].
  unfold load, queueOf in Hfit. rewrite Hq0 in Hfit. simpl in Hfit.
  pose proof (len_nonneg b) as Hlen.
  pose proof (sumSizes_range q0) as [Hlo _].
  assert (Hnew : sumSizes (q0 ++ [SizeTimestamp (len b) (Now w)]) = sumSizes q0 + len b).
  { rewrite sumSizes_snoc. apply addInt_exact. unfold inRange. simpl. lia. }
  assert (Hleast : forall k1 q1, m !! k1 = Some q1 -> sumSizes q0 <= sumSizes q1).
  { intros k1 q1 Hk1. apply (rangeOf_elem m tr) in Hk1; [|done].
    rewrite Hmin. by apply (minTraffic_lower tr (k1, q1)). }
  destruct (decide (k = minTrafficServer tr)) as [->|Hk];
    destruct (decide (k' = minTrafficServer tr)) as [->|Hk'];
    rewrite ?lookup_insert_eq, ?lookup_insert_ne by done.
  - intros [= <-] [= <-]. lia.
  - intros [= <-] Hq'. rewrite Hnew. specialize (Hleast _ _ Hq'). lia.
  - intros Hq [= <-]. rewrite Hnew. specialize (Hbal _ _ _ _ Hq Hq0). lia.
  - intros Hq Hq'. by apply (Hbal k k').
Qed.

Lemma sampleLedger_sums server q :
  sampleLedger !! server = Some q -> 0 <= sumSizes q <= 100.
Proof.
  unfold sampleLedger. intros Hq.
  repeat (apply lookup_insert_Some in Hq as [[_ <-]|[_ Hq]];
          [by vm_compute|]).
  by rewrite lookup_empty in Hq.
Qed.

Lemma serve_keeps_balance_witness :
  let m := sampleLedger in
  let tr := map_to_list sampleLedger in
  rangeOf m tr /\
  forall k k' q q',
    traffic (serve (sampleConfig true) answering tr sampleRequest m) !! k = Some q ->
    traffic (serve (sampleConfig true) answering tr sampleRequest m) !! k' = Some q' ->
    sumSizes q - sumSizes q' <= 100.
Proof.
  intros m tr. split; [apply rangeOf_map_to_list|].
  apply (serve_keeps_balance (sampleConfig true) answering tr sampleRequest m 100).
  - apply rangeOf_map_to_list.
  - intros k k' q q' Hk Hk'.
    apply sampleLedger_sums in Hk. apply sampleLedger_sums in Hk'. lia.
  - intros resp body [= <-] [= <-]. split; vm_compute; discriminate.
Defined.

(** Three requests of five bytes each on the fresh ledger, visited in
    the pool's order, land on three different backends. *)
Example serve_spreads :
  let m0 := (startup (CmdLine None None None None)).2 in
  let order (m : ledger) :=
    (fun k => (k, queueOf m k)) <$> ["server1:8080"; "server2:8080"; "server3:8080"] in
  let step m := traffic (serve (sampleConfig true) answering (order m) sampleRequest m) in
  let m3 := step (step (step m0)) in
  load m3 "server1:8080" = 5 /\ load m3 "server2:8080" = 5 /\ load m3 "server3:8080" = 5.
Proof. vm_compute. done. Qed.

End RunInvariants.

(** ** Headers, flags and start-up *)

Section HeadersAndFlags.

Implicit Types (c : config) (w : world) (s : procState) (r : request)
  (dst k : string) (hdr : list (string * list string)).

Lemma filter_key_same k (values : list string) :
  CanonicalMIMEHeaderKey k = k ->
  filter (fun call => headerKey call = Some k) (HeaderAdd k <$> values)
  = HeaderAdd k <$> values.
Proof.
  intros Hk. induction values as [|v values IH]; [done|].
  rewrite fmap_cons, filter_cons_True by (simpl; by rewrite Hk). by rewrite IH.
Qed.

Lemma filter_key_other k k' (values : list string) :
  CanonicalMIMEHeaderKey k' <> k ->
  filter (fun call => headerKey call = Some k) (HeaderAdd k' <$> values) = [].
Proof.
  intros Hne. induction values as [|v values IH]; [done|].
  rewrite fmap_cons, filter_cons_False; [done|]. simpl. congruence.
Qed.

Lemma filter_key_absent k hdr :
  Forall (fun kv => CanonicalMIMEHeaderKey kv.1 = kv.1) hdr ->
  k ∉ hdr.*1 ->
  filter (fun call => headerKey call = Some k)
         (flat_map (fun kv => HeaderAdd kv.1 <$> kv.2) hdr) = [].
Proof.
  induction 1 as [|[k1 v1] hdr Hk1 _ IH]; intros Hnot; [done|].
  simpl in *. rewrite not_elem_of_cons in Hnot. destruct Hnot as [Hne Hnot].
  rewrite filter_app, filter_key_other by congruence. by apply IH.
Qed.

Lemma filter_key_copied k values hdr :
  Forall (fun kv => CanonicalMIMEHeaderKey kv.1 = kv.1) hdr ->
  NoDup hdr.*1 ->
  (k, values) ∈ hdr ->
  filter (fun call => headerKey call = Some k)
         (flat_map (fun kv => HeaderAdd kv.1 <$> kv.2) hdr)
  = HeaderAdd k <$> values.
Proof.
  induction 1 as [|[k' values'] hdr Hk' Hcanon IH]; intros Hnd Hin.
  { by apply elem_of_nil in Hin. }
  rewrite fmap_cons in Hnd. apply NoDup_cons in Hnd as [Hnot Hnd].
  simpl in *. rewrite filter_app.
  apply elem_of_cons in Hin as [[= <- <-]|Hin].
  - rewrite filter_key_same by done.
    by rewrite filter_key_absent, app_nil_r.
  - rewrite filter_key_other, IH; [done..|].
    rewrite Hk'. intros ->. apply Hnot. apply list_elem_of_fmap. by exists (k, values).
Qed.

(** X19. Each backend header arrives whole: when the response's header
    keys are distinct and canonical, the calls [forward] makes on a
    fresh ResponseWriter that touch the header map under a key [k] are
    exactly the backend's values for [k], in their order, unless tracing
    is enabled and [k] is [Lb-From], the key the trace header is stored
    under. *)
Theorem forward_header_values c w dst r s resp body k values :
  rw s = [] ->
  Do w (fwdRequest c dst r) = inr resp ->
  Body resp = inr body ->
  NoDup (Header resp).*1 ->
  Forall (fun kv => CanonicalMIMEHeaderKey kv.1 = kv.1) (Header resp) ->
  (k, values) ∈ Header resp ->
  traceEnabled (flagValues c) = false \/ k <> "Lb-From" ->
  filter (fun call => headerKey call = Some k) (rw (forward c w dst r s).1)
  = HeaderAdd k <$> values.
Proof.
  intros Hfresh HDo HBody Hnd Hcanon Hin Hk.
  destruct (forward_relayed c w dst r s resp body HDo HBody) as (_ & -> & _).
  rewrite Hfresh. simpl. rewrite !filter_app.
  rewrite (filter_key_copied k values) by done.
  assert (Hstamp : filter (fun call => headerKey call = Some k)
                     (if traceEnabled (flagValues c)
                      then [HeaderSet "lb-from" dst] else []) = []).
  { destruct (traceEnabled (flagValues c)); [|done].
    destruct Hk as [?|Hne]; [done|].
    rewrite filter_cons_False; [done|].
    change (headerKey (HeaderSet "lb-from" dst)) with (Some "Lb-From"). congruence. }
  rewrite Hstamp. simpl.
  rewrite filter_cons_False by done. rewrite filter_cons_False by done.
  by rewrite app_nil_r.
Qed.

Lemma forward_header_values_witness :
  let s := ProcState sampleLedger [] [] [] in
  filter (fun call => headerKey call = Some "Set-Cookie")
         (rw (forward (sampleConfig true) answering "server2:8080" sampleRequest s).1)
  = HeaderAdd "Set-Cookie" <$> ["a=1"; "b=2"].
Proof.
  intros s.
  apply (forward_header_values (sampleConfig true) answering "server2:8080"
           sampleRequest s sampleResponse sampleBody).
  - reflexivity.
  - reflexivity.
  - reflexivity.
  - simpl. repeat constructor; rewrite ?elem_of_cons, ?elem_of_nil; intuition discriminate.
  - repeat constructor.
  - simpl. right. left.
  - right. discriminate.
Defined.

(** With tracing, a backend's own trace header, which arrives under the
    key [Lb-From], is followed by the [Set] call on the same key, which
    the statement above therefore excludes. *)
Example forward_trace_header_key :
  filter (fun call => headerKey call = Some "Lb-From")
    (rw (forward (sampleConfig true)
           (World (fun _ => inr (Response 200 [("Lb-From", ["other"])] (inr [])))
                  0 None)
           "server2:8080" sampleRequest (ProcState sampleLedger [] [] [])).1)
  = [HeaderAdd "Lb-From" "other"; HeaderSet "lb-from" "server2:8080"].
Proof. reflexivity. Qed.

(** X20. The [-https] and [-trace] options take effect, because the
    code reads those flags when it serves: after start-up with a given
    command line, the probe and the forwarded request use [https]
    exactly when [-https] was given as true, and a relayed response gets
    the [lb-from] call exactly when [-trace] was given as true. *)
Theorem startup_flags_take_effect args w dst r s resp body :
  let c := (startup args).1 in
  Do w (fwdRequest c dst r) = inr resp ->
  Body resp = inr body ->
  Scheme (URL (healthRequest c dst))
    = (if default false (argHttps args) then "https" else "http") /\
  Scheme (URL (fwdRequest c dst r))
    = (if default false (argHttps args) then "https" else "http") /\
  (HeaderSet "lb-from" dst ∈ drop (length (rw s)) (rw (forward c w dst r s).1)
   <-> default false (argTrace args) = true).
Proof.
  intros c HDo HBody. split; [done|]. split; [done|].
  destruct (forward_relayed c w dst r s resp body HDo HBody) as (_ & -> & _).
  rewrite drop_app_length.
  change (traceEnabled (flagValues c)) with (default false (argTrace args)).
  rewrite !elem_of_app. split.
  - intros [Hin|[Hin|Hin]].
    + by apply HeaderSet_not_copied in Hin.
    + destruct (default false (argTrace args)); [done|by apply elem_of_nil in Hin].
    + apply elem_of_cons in Hin as [?|Hin]; [done|].
      by apply list_elem_of_singleton in Hin.
  - intros ->. right; left. by apply list_elem_of_singleton.
Qed.

Lemma startup_flags_take_effect_witness :
  let args := CmdLine None None (Some true) (Some true) in
  let c := (startup args).1 in
  let s := ProcState sampleLedger [] [] [] in
  Scheme (URL (healthRequest c "server1:8080"))
    = (if default false (argHttps args) then "https" else "http") /\
  Scheme (URL (fwdRequest c "server1:8080" sampleRequest))
    = (if default false (argHttps args) then "https" else "http") /\
  (HeaderSet "lb-from" "server1:8080"
     ∈ drop (length (rw s)) (rw (forward c answering "server1:8080" sampleRequest s).1)
   <-> default false (argTrace args) = true).
Proof.
  intros args c s.
  apply (startup_flags_take_effect args answering "server1:8080" sampleRequest s
           sampleResponse sampleBody); reflexivity.
Defined.

(** X21. Creating the queues resets the pool and nothing else: after
    the loop at the start of [main] (and of each unit test) every pooled
    backend has an empty queue and load zero, whatever it held before,
    and every other entry of the ledger is untouched. *)
Theorem initTraffic_resets_pool pool (m : ledger) server :
  (server ∈ pool ->
   initTraffic pool m !! server = Some [] /\ load (initTraffic pool m) server = 0) /\
  (server ∉ pool -> initTraffic pool m !! server = m !! server).
Proof.
  split; intros Hin.
  - assert (Hq : initTraffic pool m !! server = Some []).
    { rewrite initTraffic_lookup. by rewrite decide_True. }
    split; [done|]. unfold load, queueOf. by rewrite Hq.
  - rewrite initTraffic_lookup. by rewrite decide_False.
Qed.

End HeadersAndFlags.
